(** * LedFx frontend: the save handler of the display-segments dialog

    Shallow embedding of [handleSave] from
    [frontend/src/components/DisplaySegmentsDialog/index.js] (lines 50-76)
    and of the JavaScript semantics it relies on.

    Two embeddings are given.  The first is value-level: segments are
    records, the object literal [output] is a finite map of own properties
    sitting in front of the properties it inherits from [Object.prototype].
    The second is store-level: every JavaScript object lives in a heap and
    the handler allocates and writes cells; it is used for the frame
    property and is shown to compute the same outcome as the first. *)

From Stdlib Require Import ZArith Lia.
From stdpp Require Import gmap strings list fin_maps.

Local Open Scope string_scope.
Local Open Scope list_scope.
Local Open Scope Z_scope.

(** ** Data *)

(** A segment is the 4-element array [[name, start, end, someBool]]; start
    and end are pixel indices, and the handler only ever compares them
    with [>=]. *)
Record Segment := mkSegment {
  seg_name : string;
  seg_start : Z;
  seg_end : Z;
  seg_flag : bool
}.

(** The [display] prop: [{ id, config: { name }, segments }]. *)
Record Display := mkDisplay {
  display_id : string;
  display_config_name : string;
  display_segments : list Segment
}.

(** The two action creators the handler dispatches. *)
Inductive Action :=
| showdynSnackbar (message : string)
| updateDisplayConfig (id : string) (data : list Segment).

(** How a statement completes: normally, or by throwing a [TypeError] (the
    only exception this code can raise). *)
Inductive Completion (A : Type) :=
| Normal (a : A)
| Throw.
Arguments Normal {A} a.
Arguments Throw {A}.

(** The built-in objects reachable from an object literal. *)
Inductive Builtin :=
| BFunction (arity : nat)   (* a built-in method; [arity] is its .length *)
| BObjectPrototype.         (* Object.prototype itself *)

(** What [output[name]] can evaluate to. *)
Inductive Property :=
| PArray (ranges : list (Z * Z))   (* an array of [start, end] pairs *)
| PBuiltin (b : Builtin).

(** [let output = {}] is an ordinary object: besides its own properties it
    inherits those of [Object.prototype] (ECMA-262, 20.1.3 and B.2.2).
    The table gives each inherited property with the number of parameters of
    the method, which is what [.length] reads. *)
Definition Object_prototype : list (string * Builtin) :=
  [ ("constructor", BFunction 1);
    ("hasOwnProperty", BFunction 1);
    ("isPrototypeOf", BFunction 1);
    ("propertyIsEnumerable", BFunction 1);
    ("toLocaleString", BFunction 0);
    ("toString", BFunction 0);
    ("valueOf", BFunction 0);
    ("__defineGetter__", BFunction 2);
    ("__defineSetter__", BFunction 2);
    ("__lookupGetter__", BFunction 1);
    ("__lookupSetter__", BFunction 1);
    ("__proto__", BObjectPrototype) ].

Fixpoint assoc (key : string) (table : list (string * Builtin)) : option Builtin :=
  match table with
  | [] => None
  | (k, v) :: rest => if decide (k = key) then Some v else assoc key rest
  end.

Definition inherited (name : string) : option Builtin :=
  assoc name Object_prototype.

(** [name in output]: own property, or found along the prototype chain. *)
Definition has_property (name : string) (own : gmap string (list (Z * Z))) : bool :=
  match own !! name with
  | Some _ => true
  | None => match inherited name with Some _ => true | None => false end
  end.

(** [output[name]]: [None] stands for [undefined]. *)
Definition get_property (name : string) (own : gmap string (list (Z * Z))) : option Property :=
  match own !! name with
  | Some ranges => Some (PArray ranges)
  | None => PBuiltin <$> inherited name
  end.

(** ** The handler, value level *)

(** The two variables the callback closes over. *)
Record Scope := mkScope {
  output : gmap string (list (Z * Z));
  overlap : bool
}.

(** Lines 57-65 on an array: every pair already placed is compared with the
    new [start]; a hit sets [overlap], nothing ever clears it. *)
Definition scan (start : Z) (placed : list (Z * Z)) (overlap0 : bool) : bool :=
  fold_left
    (fun ov '(tmpStart, tmpEnd) => if tmpEnd >=? start then true else ov)
    placed overlap0.

(** Lines 57-65 on whatever [output[name]] is.  On a function of positive
    arity the body runs with [output[name][0] === undefined], which the
    array destructuring of line 58 rejects; a [length] of [0] or
    [undefined] skips the body. *)
Definition for_loop (target : option Property) (start : Z) (overlap0 : bool)
  : Completion bool :=
  match target with
  | Some (PArray placed) => Normal (scan start placed overlap0)
  | Some (PBuiltin (BFunction (S _))) => Throw
  | Some (PBuiltin (BFunction O)) => Normal overlap0
  | Some (PBuiltin BObjectPrototype) => Normal overlap0
  | None => Throw
  end.

(** Line 66: only an array has [push]. *)
Definition push (target : option Property) (name : string) (range : Z * Z)
    (own : gmap string (list (Z * Z))) : Completion (gmap string (list (Z * Z))) :=
  match target with
  | Some (PArray placed) => Normal (<[name := placed ++ [range]]> own)
  | _ => Throw
  end.

(** Lines 53-67: the arrow function given to [forEach].  The source
    evaluates [output[name]] anew at lines 57, 58 and 66; nothing in between
    writes to [output], so it is evaluated once here, as [target]. *)
Definition callback (sc : Scope) (s : Segment) : Completion Scope :=
  let own :=
    if has_property (seg_name s) (output sc) then output sc
    else <[seg_name s := []]> (output sc) in
  let target := get_property (seg_name s) own in
  match for_loop target (seg_start s) (overlap sc) with
  | Throw => Throw
  | Normal ov =>
      match push target (seg_name s) (seg_start s, seg_end s) own with
      | Throw => Throw
      | Normal own' => Normal (mkScope own' ov)
      end
  end.

(** [Array.prototype.forEach]: in order, stopping at the first throw. *)
Fixpoint forEach {S A : Type} (f : S -> A -> Completion S) (l : list A) (sc : S)
  : Completion S :=
  match l with
  | [] => Normal sc
  | x :: rest =>
      match f sc x with
      | Normal sc' => forEach f rest sc'
      | Throw => Throw
      end
  end.

(** Lines 51-67: the validator, i.e. the value of [overlap] when line 68 is
    reached, if it is reached. *)
Definition validate (segments : list Segment) : Completion bool :=
  match forEach callback segments (mkScope ∅ false) with
  | Normal sc => Normal (overlap sc)
  | Throw => Throw
  end.

Definition overlap_message : string :=
  "Overlapping detected! Please Check your config".

(** [dispatch] hands an action to the store; the store is seen as the log
    of the actions it has received. *)
Definition dispatch (a : Action) (store : list Action) : list Action :=
  store ++ [a].

(** Lines 50-76. *)
Definition handleSave (display : Display) (store : list Action)
  : Completion unit * list Action :=
  match validate (display_segments display) with
  | Throw => (Throw, store)
  | Normal true =>
      (Normal tt, dispatch (showdynSnackbar overlap_message) store)
  | Normal false =>
      (Normal tt,
       dispatch (updateDisplayConfig (display_id display) (display_segments display))
                store)
  end.

(** ** The handler, store level *)

(** JavaScript arrays and objects are references into a heap; primitives
    are immediate.  Built-ins live outside the modelled heap. *)
Definition loc := positive.

Inductive val :=
| VUndefined
| VBool (b : bool)
| VNum (z : Z)
| VStr (s : string)
| VRef (l : loc)
| VBuiltin (b : Builtin).

Inductive obj :=
| OArray (elems : list val)
| OObject (props : gmap string val).

(** A dispatched action with the argument values of its creator. *)
Inductive StoreAction :=
| showdynSnackbar_at (message : string)
| updateDisplayConfig_at (id data : val).

Record World := mkWorld {
  heap : gmap loc obj;
  store : list StoreAction
}.

(** A computation ends normally, throws, or leaves the fragment of
    JavaScript modelled here (values of a type the [display] prop never
    holds); the world is kept in the first two cases. *)
Inductive Res (A : Type) :=
| Ret (a : A) (w : World)
| Exn (w : World)
| Stuck.
Arguments Ret {A} a w.
Arguments Exn {A} w.
Arguments Stuck {A}.

Definition M (A : Type) : Type := World -> Res A.

Definition ret {A} (a : A) : M A := fun w => Ret a w.

Definition bind {A B} (m : M A) (k : A -> M B) : M B :=
  fun w =>
    match m w with
    | Ret a w' => k a w'
    | Exn w' => Exn w'
    | Stuck => Stuck
    end.

Notation "'let*' x ':=' m 'in' k" := (bind m (fun x => k))
  (at level 10, x name, m at level 100, k at level 200,
   format "'[v' 'let*'  x  ':='  m  'in' '/' k ']'").
Notation "m ';;' k" := (bind m (fun _ => k))
  (at level 100, k at level 200, right associativity).

Definition throw {A} : M A := fun w => Exn w.
Definition stuck {A} : M A := fun _ => Stuck.

(** An object or array literal: a cell at an address not in use. *)
Definition alloc (o : obj) : M loc :=
  fun w =>
    let l := fresh (dom (heap w)) in
    Ret l (mkWorld (<[l := o]> (heap w)) (store w)).

Definition load (l : loc) : M obj :=
  fun w => match heap w !! l with Some o => Ret o w | None => Stuck end.

Definition write (l : loc) (o : obj) : M unit :=
  fun w => Ret tt (mkWorld (<[l := o]> (heap w)) (store w)).

Definition dispatch_at (a : StoreAction) : M unit :=
  fun w => Ret tt (mkWorld (heap w) (store w ++ [a])).

(** [name in o] for an ordinary object [o]. *)
Definition has_prop (o : loc) (name : string) : M bool :=
  let* c := load o in
  match c with
  | OObject props =>
      ret (match props !! name with
           | Some _ => true
           | None => match inherited name with Some _ => true | None => false end
           end)
  | OArray _ => stuck
  end.

(** [o[name]] and [o.name] for an ordinary object [o]. *)
Definition get_prop (o : val) (name : string) : M val :=
  match o with
  | VRef l =>
      let* c := load l in
      match c with
      | OObject props =>
          ret (match props !! name with
               | Some v => v
               | None =>
                   match inherited name with
                   | Some b => VBuiltin b
                   | None => VUndefined
                   end
               end)
      | OArray _ => stuck
      end
  | VUndefined => throw
  | _ => stuck
  end.

(** [o[name] = v] for an ordinary object [o]. *)
Definition set_prop (o : loc) (name : string) (v : val) : M unit :=
  let* c := load o in
  match c with
  | OObject props => write o (OObject (<[name := v]> props))
  | OArray _ => stuck
  end.

(** The elements an array destructuring pattern draws from [v]:
    [undefined], plain objects and functions are not iterable. *)
Definition destructure (v : val) : M (list val) :=
  match v with
  | VRef l =>
      let* c := load l in
      match c with
      | OArray elems => ret elems
      | OObject _ => throw
      end
  | VUndefined => throw
  | VBuiltin _ => throw
  | _ => stuck
  end.

(** The [i]-th variable of a pattern; [undefined] past the end. *)
Definition pattern_var (elems : list val) (i : nat) : val :=
  default VUndefined (elems !! i).

(** Lines 57-65 on an array. *)
Fixpoint scan_at (start : Z) (placed : list val) (overlap0 : bool) : M bool :=
  match placed with
  | [] => ret overlap0
  | p :: rest =>
      let* pair := destructure p in
      match pattern_var pair 1 with
      | VNum tmpEnd =>
          scan_at start rest (if tmpEnd >=? start then true else overlap0)
      | _ => stuck
      end
  end.

(** Lines 57-65 on whatever [output[name]] is. *)
Definition for_loop_at (target : val) (start : Z) (overlap0 : bool) : M bool :=
  match target with
  | VRef l =>
      let* c := load l in
      match c with
      | OArray placed => scan_at start placed overlap0
      | OObject _ => stuck
      end
  | VBuiltin (BFunction (S _)) => throw
  | VBuiltin (BFunction O) => ret overlap0
  | VBuiltin BObjectPrototype => ret overlap0
  | VUndefined => throw
  | _ => stuck
  end.

(** Line 66: [target.push(v)]. *)
Definition push_at (target : val) (v : val) : M unit :=
  match target with
  | VRef l =>
      let* c := load l in
      match c with
      | OArray elems => write l (OArray (elems ++ [v]))
      | OObject _ => throw
      end
  | VBuiltin _ => throw
  | VUndefined => throw
  | _ => stuck
  end.

(** Lines 53-67; [output] is the address of the object literal, [overlap0]
    the current value of the variable [overlap].  As at the value level,
    [output[name]] is evaluated once, after line 56.  The pair [[start, end]]
    is allocated before [push] is called, as an argument is. *)
Definition callback_at (output : loc) (overlap0 : bool) (segment : val) : M bool :=
  let* tuple := destructure segment in
  match pattern_var tuple 0, pattern_var tuple 1, pattern_var tuple 2 with
  | VStr name, VNum start, VNum end_ =>
      let* present := has_prop output name in
      (if present : bool then ret tt
       else let* fresh_array := alloc (OArray []) in
            set_prop output name (VRef fresh_array));;
      let* target := get_prop (VRef output) name in
      let* ov := for_loop_at target start overlap0 in
      let* pair := alloc (OArray [VNum start; VNum end_]) in
      push_at target (VRef pair);;
      ret ov
  | _, _, _ => stuck
  end.

(** [forEach] visits indices [k, k+1, ...] for [n] rounds, reading the
    array again at each round. *)
Fixpoint forEach_from {S : Type} (f : S -> val -> M S) (array : loc)
    (k n : nat) (s : S) : M S :=
  match n with
  | O => ret s
  | Datatypes.S n' =>
      let* c := load array in
      match c with
      | OArray elems =>
          match elems !! k with
          | Some v => let* s' := f s v in forEach_from f array (Datatypes.S k) n' s'
          | None => forEach_from f array (Datatypes.S k) n' s
          end
      | OObject _ => stuck
      end
  end.

(** [array.forEach(f)]: the length is read once, up front. *)
Definition forEach_at {S : Type} (f : S -> val -> M S) (array : val) (s : S) : M S :=
  match array with
  | VRef l =>
      let* c := load l in
      match c with
      | OArray elems => forEach_from f l 0 (length elems) s
      | OObject _ => throw
      end
  | VUndefined => throw
  | _ => stuck
  end.

(** Lines 50-76; [display] is the address of the prop. *)
Definition handleSave_at (display : loc) : M unit :=
  let* output := alloc (OObject ∅) in
  let* segments := get_prop (VRef display) "segments" in
  let* ov := forEach_at (callback_at output) segments false in
  if ov : bool then dispatch_at (showdynSnackbar_at overlap_message)
  else
    let* id := get_prop (VRef display) "id" in
    let* data := get_prop (VRef display) "segments" in
    dispatch_at (updateDisplayConfig_at id data).

(** *** Reading a display back from the heap *)

Definition read_segment (h : gmap loc obj) (v : val) : option Segment :=
  match v with
  | VRef l =>
      match h !! l with
      | Some (OArray [VStr name; VNum start; VNum end_; VBool someBool]) =>
          Some (mkSegment name start end_ someBool)
      | _ => None
      end
  | _ => None
  end.

Definition read_segments (h : gmap loc obj) (v : val) : option (list Segment) :=
  match v with
  | VRef l =>
      match h !! l with
      | Some (OArray elems) => mapM (read_segment h) elems
      | _ => None
      end
  | _ => None
  end.

Definition read_config_name (h : gmap loc obj) (v : val) : option string :=
  match v with
  | VRef l =>
      match h !! l with
      | Some (OObject props) =>
          match props !! "name" with Some (VStr s) => Some s | _ => None end
      | _ => None
      end
  | _ => None
  end.

Definition read_display (h : gmap loc obj) (l : loc) : option Display :=
  match h !! l with
  | Some (OObject props) =>
      match props !! "id", props !! "config", props !! "segments" with
      | Some (VStr id), Some config, Some segments =>
          match read_config_name h config, read_segments h segments with
          | Some name, Some segs => Some (mkDisplay id name segs)
          | _, _ => None
          end
      | _, _, _ => None
      end
  | _ => None
  end.

Definition read_action (h : gmap loc obj) (a : StoreAction) : option Action :=
  match a with
  | showdynSnackbar_at message => Some (showdynSnackbar message)
  | updateDisplayConfig_at (VStr id) data =>
      match read_segments h data with
      | Some segs => Some (updateDisplayConfig id segs)
      | None => None
      end
  | updateDisplayConfig_at _ _ => None
  end.

(** A small heap: a display with two segments of one strip. *)
Definition demo_heap : gmap loc obj :=
  {[ 1%positive := OObject {[ "id" := VStr "wall"; "config" := VRef 2%positive;
                              "segments" := VRef 3%positive ]};
     2%positive := OObject {[ "name" := VStr "Wall" ]};
     3%positive := OArray [VRef 4%positive; VRef 5%positive];
     4%positive := OArray [VStr "strip"; VNum 0; VNum 5; VBool false];
     5%positive := OArray [VStr "strip"; VNum 5; VNum 10; VBool true] ]}.

(** ** Vocabulary of the statements *)

(** A name that does not collide with a property of [Object.prototype]. *)
Definition ordinary (name : string) : bool :=
  match inherited name with None => true | Some _ => false end.

(** The segments of one name, in sequence order. *)
Definition only (name : string) (segments : list Segment) : list Segment :=
  filter (fun s => seg_name s = name) segments.

Definition range (s : Segment) : Z * Z := (seg_start s, seg_end s).

(** The distinct names of a sequence. *)
Definition names_of (segments : list Segment) : list string :=
  remove_dups (seg_name <$> segments).

(** Some segment of [placed] has the name of [s] and ends at or after the
    start of [s]. *)
Definition hits (placed : list Segment) (s : Segment) : bool :=
  existsb
    (fun p => bool_decide (seg_name p = seg_name s) && (seg_end p >=? seg_start s))
    placed.

(** Some segment of [segments] is hit by a segment before it, [placed]
    standing for the segments already processed. *)
Fixpoint overlaps_from (placed segments : list Segment) : bool :=
  match segments with
  | [] => false
  | s :: rest => hits placed s || overlaps_from (placed ++ [s]) rest
  end.

(** What line 53-67 do to the scope on an ordinary name. *)
Definition place (sc : Scope) (s : Segment) : Scope :=
  let placed := default [] (output sc !! seg_name s) in
  mkScope (<[seg_name s := placed ++ [range s]]> (output sc))
          (scan (seg_start s) placed (overlap sc)).

(** Two positions [i < j] hold segments of one name, the earlier one ending
    at or after the start of the later one. *)
Definition overlapping (segments : list Segment) : Prop :=
  exists (i j : nat) (si sj : Segment),
    (i < j)%nat /\ segments !! i = Some si /\ segments !! j = Some sj /\
    seg_name si = seg_name sj /\ seg_end si >= seg_start sj.

(** Disjunction of two validator runs; a throw in either is a throw. *)
Definition or_completion (a b : Completion bool) : Completion bool :=
  match a, b with
  | Normal x, Normal y => Normal (x || y)
  | _, _ => Throw
  end.

(** Equal up to the fourth tuple element. *)
Definition same_range (s1 s2 : Segment) : Prop :=
  seg_name s1 = seg_name s2 /\ seg_start s1 = seg_start s2 /\
  seg_end s1 = seg_end s2.

(** A segment with its flag cleared. *)
Definition unflagged (s : Segment) : Segment :=
  mkSegment (seg_name s) (seg_start s) (seg_end s) false.

(** The own properties of [output] are ordinary names. *)
Definition own_ordinary (sc : Scope) : Prop :=
  forall name, is_Some (output sc !! name) -> ordinary name = true.

(** [sc] is the scope reached after the segments [placed]. *)
Definition reached (placed : list Segment) (sc : Scope) : Prop :=
  forall name, default [] (output sc !! name) = range <$> only name placed.

(** ** Vocabulary of the simulation *)

(** The cell at [l], if any, is not a pair of numbers: a write to [l]
    keeps the pairs of every group. *)
Definition not_a_pair (h : gmap loc obj) (l : loc) : Prop :=
  forall r1 r2 : Z, h !! l <> Some (OArray [VNum r1; VNum r2]).

(** [v] is an array of pairs holding [ranges], allocated after [h0]. *)
Definition group_at (h0 h : gmap loc obj) (v : val) (ranges : list (Z * Z)) : Prop :=
  exists (la : loc) (lps : list loc),
    v = VRef la /\ h0 !! la = None /\
    h !! la = Some (OArray (VRef <$> lps)) /\
    Forall2 (fun lp r => h !! lp = Some (OArray [VNum r.1; VNum r.2])) lps ranges.

(** The object at [lo] holds the scope [sc]; everything of [h0] is as it
    was. *)
Definition sim (h0 : gmap loc obj) (st0 : list StoreAction) (lo : loc)
    (sc : Scope) (w : World) : Prop :=
  h0 ⊆ heap w /\ store w = st0 /\ h0 !! lo = None /\
  exists props : gmap string val,
    heap w !! lo = Some (OObject props) /\
    (forall name,
        match props !! name with
        | Some v =>
            exists ranges, output sc !! name = Some ranges /\
                           group_at h0 (heap w) v ranges
        | None => output sc !! name = None
        end) /\
    (forall n1 n2 v, props !! n1 = Some v -> props !! n2 = Some v -> n1 = n2).

(** ** The component around the handler *)

(** Line 41, [React.useState(false)]: the dialog starts closed. *)
Definition initial_open : bool := false.

(** Lines 42-44: [setOpen(true)]; the result is the next value of [open]. *)
Definition handleClickOpen (open : bool) : bool := true.

(** Lines 46-48: [setOpen(false)]. *)
Definition handleClose (open : bool) : bool := false.

(** What the user can do: press the toggle button (line 83), leave the
    dialog by the back button or by the dialog's own [onClose] (lines 89
    and 97), press the save button (line 111). *)
Inductive Event :=
| OpenClicked
| CloseRequested
| SaveClicked.

(** The hook state of the component together with the external store. *)
Record Component := mkComponent {
  open : bool;
  redux : list Action
}.

(** One event on a component rendered for [display].  The save handler
    does not touch the hook: its [setOpen(false)] (line 74) is commented
    out; when it throws, the store is as it was. *)
Definition on_event (display : Display) (c : Component) (e : Event) : Component :=
  match e with
  | OpenClicked => mkComponent (handleClickOpen (open c)) (redux c)
  | CloseRequested => mkComponent (handleClose (open c)) (redux c)
  | SaveClicked => mkComponent (open c) (handleSave display (redux c)).2
  end.

Definition run_events (display : Display) (events : list Event) (c : Component)
  : Component :=
  fold_left (on_event display) events c.

(** The props of one [<Segment s i key display />] element. *)
Record SegmentElement := mkSegmentElement {
  element_key : nat;
  element_s : Segment;
  element_i : nat;
  element_display : Display
}.

(** Lines 131-134: [display.segments.length > 0 && display.segments.map(...)];
    [None] is the value [false], which renders nothing. *)
Definition segment_rows (display : Display) : option (list SegmentElement) :=
  if (0 <? length (display_segments display))%nat
  then Some (imap (fun i s => mkSegmentElement i s i display)
                  (display_segments display))
  else None.

(** The elements that end up on screen. *)
Definition rendered_rows (display : Display) : list SegmentElement :=
  default [] (segment_rows display).

(** ** Vocabulary of the further statements *)

(** The closed pixel ranges of two segments have a pixel in common. *)
Definition shares_pixel (s1 s2 : Segment) : Prop :=
  exists p : Z,
    seg_start s1 <= p <= seg_end s1 /\ seg_start s2 <= p <= seg_end s2.

(** Two distinct positions hold segments of one name whose ranges have a
    pixel in common. *)
Definition sharing (segments : list Segment) : Prop :=
  exists (i j : nat) (si sj : Segment),
    i <> j /\ segments !! i = Some si /\ segments !! j = Some sj /\
    seg_name si = seg_name sj /\ shares_pixel si sj.

(** Segments of one name come in the order of their starts. *)
Definition sorted_within_names (segments : list Segment) : Prop :=
  forall (i j : nat) (si sj : Segment),
    (i < j)%nat -> segments !! i = Some si -> segments !! j = Some sj ->
    seg_name si = seg_name sj -> seg_start si <= seg_start sj.

(** The number of save attempts among the events. *)
Fixpoint saves (events : list Event) : nat :=
  match events with
  | [] => O
  | SaveClicked :: rest => S (saves rest)
  | _ :: rest => saves rest
  end.

(** The last request to open or close among the events, if any. *)
Fixpoint last_request (events : list Event) : option bool :=
  match events with
  | [] => None
  | e :: rest =>
      match last_request rest with
      | Some b => Some b
      | None =>
          match e with
          | OpenClicked => Some true
          | CloseRequested => Some false
          | SaveClicked => None
          end
      end
  end.

(** The grouping map holds, for every name that occurs, the ranges of that
    name in sequence order, and nothing else. *)
Definition grouped (placed : list Segment) (sc : Scope) : Prop :=
  forall name,
    output sc !! name =
      if decide (name ∈ seg_name <$> placed)
      then Some (range <$> only name placed) else None.

(** * Properties of the value-level handler *)

(** ** Sample runs *)

Example validate_two_strips :
  validate [mkSegment "strip" 0 5 false; mkSegment "matrix" 0 5 false;
            mkSegment "strip" 6 9 true] = Normal false.
Proof. vm_compute. reflexivity. Qed.

Example validate_nested_range :
  validate [mkSegment "strip" 0 100 false; mkSegment "strip" 10 20 false]
  = Normal true.
Proof. vm_compute. reflexivity. Qed.

(** Every name of the table makes the validator throw. *)
Example validate_inherited_names :
  forallb
    (fun entry : string * Builtin =>
       match validate [mkSegment entry.1 0 5 false] with
       | Throw => true
       | Normal _ => false
       end)
    Object_prototype = true.
Proof. vm_compute. reflexivity. Qed.

Example handleSave_at_demo_heap :
  exists w,
    handleSave_at 1%positive (mkWorld demo_heap []) = Ret tt w /\
    store w = [showdynSnackbar_at overlap_message] /\
    read_display (heap w) 1%positive = read_display demo_heap 1%positive.
Proof.
  eexists. split; [vm_compute; reflexivity|].
  split; vm_compute; reflexivity.
Qed.

(** ** The callback and the loop *)

Section Callback.

Implicit Types (sc : Scope) (s : Segment) (segs : list Segment).

Lemma scan_existsb start placed ov :
  scan start placed ov = ov || existsb (fun p => p.2 >=? start) placed.
Proof.
  unfold scan. revert ov.
  induction placed as [|[tmpStart tmpEnd] placed IH]; intros ov; simpl.
  - by rewrite orb_false_r.
  - rewrite IH. destruct (tmpEnd >=? start), ov; reflexivity.
Qed.

Lemma ordinary_inherited name : ordinary name = true <-> inherited name = None.
Proof. unfold ordinary. destruct (inherited name); split; congruence. Qed.

Lemma callback_ordinary sc s :
  ordinary (seg_name s) = true -> callback sc s = Normal (place sc s).
Proof.
  intros Hord%ordinary_inherited.
  unfold callback, place, has_property, get_property, range. cbv zeta.
  destruct (output sc !! seg_name s) as [placed|] eqn:Hown; simpl.
  - rewrite Hown. reflexivity.
  - rewrite Hord. rewrite lookup_insert_eq. simpl.
    by rewrite insert_insert_eq.
Qed.

Lemma callback_inherited sc s :
  output sc !! seg_name s = None -> ordinary (seg_name s) = false ->
  callback sc s = Throw.
Proof.
  unfold ordinary, callback, has_property, get_property. cbv zeta.
  intros Hown Hinh. rewrite Hown.
  destruct (inherited (seg_name s)) as [b|]; [|done].
  rewrite Hown. destruct b as [[|n]|]; reflexivity.
Qed.


Lemma place_own_ordinary sc s :
  ordinary (seg_name s) = true -> own_ordinary sc -> own_ordinary (place sc s).
Proof.
  intros Hord Hsc name. unfold place; simpl.
  destruct (decide (seg_name s = name)) as [<-|Hne]; [done|].
  rewrite lookup_insert_ne by done. apply Hsc.
Qed.

Lemma forEach_callback segs sc :
  own_ordinary sc ->
  forEach callback segs sc =
    if forallb (fun s => ordinary (seg_name s)) segs
    then Normal (fold_left place segs sc) else Throw.
Proof.
  revert sc. induction segs as [|s segs IH]; intros sc Hsc; simpl; [done|].
  destruct (ordinary (seg_name s)) eqn:Hord; simpl.
  - rewrite callback_ordinary by done. apply IH. by apply place_own_ordinary.
  - rewrite callback_inherited; [done| |done].
    destruct (output sc !! seg_name s) eqn:Hown; [|done].
    rewrite Hsc in Hord; [done|by eexists].
Qed.

Lemma only_snoc name segs s :
  only name (segs ++ [s]) =
    only name segs ++ (if decide (seg_name s = name) then [s] else []).
Proof.
  unfold only. rewrite filter_app. reflexivity.
Qed.

Lemma hits_only placed s :
  existsb (fun p => p.2 >=? seg_start s) (range <$> only (seg_name s) placed)
  = hits placed s.
Proof.
  unfold hits, only. induction placed as [|p placed IH]; [done|].
  rewrite filter_cons. cbn [existsb].
  destruct (decide (seg_name p = seg_name s)) as [Heq|Hne].
  - rewrite bool_decide_eq_true_2 by done. rewrite fmap_cons.
    cbn [existsb]. by rewrite IH.
  - rewrite bool_decide_eq_false_2 by done. exact IH.
Qed.


Lemma reached_place placed sc s :
  reached placed sc -> reached (placed ++ [s]) (place sc s).
Proof.
  intros Hsc name. unfold place; simpl. rewrite only_snoc, fmap_app.
  destruct (decide (seg_name s = name)) as [<-|Hne].
  - rewrite lookup_insert_eq. simpl. by rewrite Hsc.
  - rewrite lookup_insert_ne by done. simpl. rewrite app_nil_r. apply Hsc.
Qed.

Lemma place_overlap placed sc s :
  reached placed sc -> overlap (place sc s) = overlap sc || hits placed s.
Proof.
  intros Hsc. unfold place; simpl.
  by rewrite scan_existsb, Hsc, hits_only.
Qed.

Lemma fold_place_overlap segs placed sc :
  reached placed sc ->
  overlap (fold_left place segs sc) = overlap sc || overlaps_from placed segs.
Proof.
  revert placed sc. induction segs as [|s segs IH]; intros placed sc Hsc; simpl.
  - by rewrite orb_false_r.
  - rewrite (IH (placed ++ [s])) by by apply reached_place.
    rewrite (place_overlap placed) by done. by rewrite orb_assoc.
Qed.

Lemma fold_place_reached segs placed sc :
  reached placed sc -> reached (placed ++ segs) (fold_left place segs sc).
Proof.
  revert placed sc. induction segs as [|s segs IH]; intros placed sc Hsc; simpl.
  - by rewrite app_nil_r.
  - rewrite cons_middle, app_assoc. apply IH. by apply reached_place.
Qed.

Lemma reached_initial : reached [] (mkScope ∅ false).
Proof. intros name. simpl. by rewrite lookup_empty. Qed.

Lemma own_ordinary_initial : own_ordinary (mkScope ∅ false).
Proof. intros name [x Hx]. simpl in Hx. by rewrite lookup_empty in Hx. Qed.

(** The validator in closed form: it throws on the first name inherited
    from [Object.prototype] and otherwise returns [overlaps_from]. *)
Lemma validate_closed_form segs :
  validate segs =
    if forallb (fun s => ordinary (seg_name s)) segs
    then Normal (overlaps_from [] segs) else Throw.
Proof.
  unfold validate. rewrite forEach_callback by apply own_ordinary_initial.
  destruct (forallb _ segs); [|done].
  by rewrite (fold_place_overlap segs []) by apply reached_initial.
Qed.

Lemma hits_spec placed s :
  hits placed s = true <->
  exists (i : nat) (p : Segment),
    placed !! i = Some p /\ seg_name p = seg_name s /\ seg_end p >= seg_start s.
Proof.
  unfold hits. rewrite existsb_exists. split.
  - intros (p & Hin & Hp). apply andb_true_iff in Hp as [Hname Hge].
    apply bool_decide_eq_true_1 in Hname. apply Z.geb_le in Hge.
    apply list_elem_of_In, list_elem_of_lookup in Hin as [i Hi].
    exists i, p. repeat split; [done..|lia].
  - intros (i & p & Hi & Hname & Hge). exists p. split.
    + apply list_elem_of_In. by eapply list_elem_of_lookup_2.
    + apply andb_true_iff. split; [by apply bool_decide_eq_true_2|].
      apply Z.geb_le. lia.
Qed.

Lemma overlaps_from_spec segs placed :
  overlaps_from placed segs = true <->
  exists (j : nat) (sj : Segment),
    segs !! j = Some sj /\ hits (placed ++ take j segs) sj = true.
Proof.
  revert placed. induction segs as [|s segs IH]; intros placed; simpl.
  - split; [done|]. by intros (j & sj & Hj & _).
  - rewrite orb_true_iff, IH. split.
    + intros [Hs|(j & sj & Hj & Hhit)].
      * exists 0%nat, s. simpl. by rewrite app_nil_r.
      * exists (S j), sj. simpl. split; [done|].
        by rewrite cons_middle, app_assoc.
    + intros ([|j] & sj & Hj & Hhit); simpl in *.
      * left. rewrite app_nil_r in Hhit. by simplify_eq.
      * right. exists j, sj. split; [done|].
        by rewrite cons_middle, app_assoc in Hhit.
Qed.

Lemma overlaps_overlapping segs :
  overlaps_from [] segs = true <-> overlapping segs.
Proof.
  rewrite overlaps_from_spec. unfold overlapping. split.
  - intros (j & sj & Hj & Hhit). simpl in Hhit.
    apply hits_spec in Hhit as (i & si & Hi & Hname & Hge).
    apply lookup_take_Some in Hi as [Hi Hlt].
    by exists i, j, si, sj.
  - intros (i & j & si & sj & Hlt & Hi & Hj & Hname & Hge).
    exists j, sj. split; [done|]. simpl. apply hits_spec.
    exists i, si. split; [|done]. by apply lookup_take_Some.
Qed.

(** *** One name at a time *)

Lemma hits_only_name placed s :
  hits (only (seg_name s) placed) s = hits placed s.
Proof.
  unfold hits, only. induction placed as [|p placed IH]; [done|].
  rewrite filter_cons. cbn [existsb].
  destruct (decide (seg_name p = seg_name s)) as [Heq|Hne].
  - cbn [existsb]. by rewrite IH.
  - rewrite IH. by rewrite bool_decide_eq_false_2 by done.
Qed.

Lemma overlaps_from_only_cons name placed s rest :
  overlaps_from (only name placed) (only name (s :: rest)) =
    (bool_decide (seg_name s = name) && hits placed s)
    || overlaps_from (only name (placed ++ [s])) (only name rest).
Proof.
  rewrite only_snoc. unfold only at 2. rewrite filter_cons. fold (only name rest).
  destruct (decide (seg_name s = name)) as [<-|Hne].
  - rewrite bool_decide_eq_true_2 by done. simpl. by rewrite hits_only_name.
  - rewrite bool_decide_eq_false_2 by done. simpl. by rewrite app_nil_r.
Qed.

Lemma existsb_pointwise {A} (f g : A -> bool) (l : list A) :
  (forall x, f x = g x) -> existsb f l = existsb g l.
Proof. intros Hfg. induction l as [|x l IH]; simpl; [done|]. by rewrite Hfg, IH. Qed.

Lemma existsb_orb {A} (f g : A -> bool) (l : list A) :
  existsb (fun x => f x || g x) l = existsb f l || existsb g l.
Proof.
  induction l as [|x l IH]; simpl; [done|]. rewrite IH.
  destruct (f x), (g x), (existsb f l); reflexivity.
Qed.

Lemma existsb_pick (x : string) (c : bool) (l : list string) :
  x ∈ l -> existsb (fun y => bool_decide (x = y) && c) l = c.
Proof.
  induction 1 as [x l|x y l Hin IH]; simpl.
  - rewrite bool_decide_eq_true_2 by done. simpl.
    destruct c; [done|]. induction l as [|z l IHl]; simpl; [done|].
    by rewrite andb_false_r.
  - rewrite IH. destruct c; [by rewrite orb_true_r|]. by rewrite andb_false_r.
Qed.

Lemma overlaps_from_names names segs placed :
  (forall s, s ∈ segs -> seg_name s ∈ names) ->
  overlaps_from placed segs =
    existsb (fun name => overlaps_from (only name placed) (only name segs)) names.
Proof.
  revert placed. induction segs as [|s segs IH]; intros placed Hnames.
  - clear Hnames. induction names as [|n names IHn]; cbn [existsb]; [done|].
    rewrite <- IHn. reflexivity.
  - rewrite (existsb_pointwise _ (fun name =>
               (bool_decide (seg_name s = name) && hits placed s)
               || overlaps_from (only name (placed ++ [s])) (only name segs)))
      by (intros; apply overlaps_from_only_cons).
    rewrite existsb_orb, existsb_pick by (apply Hnames; left).
    rewrite <- IH by (intros; apply Hnames; by right). reflexivity.
Qed.

End Callback.

(** ** The validator on ordinary names *)

Lemma forallb_ordinary segs :
  forallb (fun s => ordinary (seg_name s)) segs = true <->
  Forall (fun s => ordinary (seg_name s) = true) segs.
Proof.
  rewrite forallb_forall, Forall_forall.
  split; intros H s Hs; apply H; by apply list_elem_of_In.
Qed.

(** On names that are not inherited from [Object.prototype] the validator
    returns, and it reports an overlap exactly when two positions [i < j]
    hold segments of one name with [end i >= start j]. *)
Lemma validate_ordinary_overlapping segs :
  Forall (fun s => ordinary (seg_name s) = true) segs ->
  exists b : bool, validate segs = Normal b /\ (b = true <-> overlapping segs).
Proof.
  intros Hord%forallb_ordinary. rewrite validate_closed_form, Hord.
  eexists. split; [done|]. apply overlaps_overlapping.
Qed.

(** The validator throws exactly when some name is inherited from
    [Object.prototype]. *)
Lemma validate_throw_iff segs :
  validate segs = Throw <->
  Exists (fun s => ordinary (seg_name s) = false) segs.
Proof.
  rewrite validate_closed_form.
  destruct (forallb _ segs) eqn:Hall.
  - split; [done|]. intros Hex. apply forallb_ordinary in Hall.
    apply Exists_exists in Hex as (s & Hs & Hinh).
    rewrite Forall_forall in Hall. specialize (Hall s Hs). congruence.
  - split; [|done]. intros _. apply not_true_iff_false in Hall.
    rewrite forallb_ordinary in Hall. apply not_Forall_Exists in Hall; [|solve_decision].
    eapply Exists_impl; [done|]. simpl. intros s Hs. by destruct (ordinary _).
Qed.

(** On ordinary names the handler dispatches exactly one action: the
    notification when the segments overlap, the store update otherwise. *)
Lemma handleSave_ordinary display store :
  Forall (fun s => ordinary (seg_name s) = true) (display_segments display) ->
  exists a : Action,
    handleSave display store = (Normal tt, store ++ [a]) /\
    (overlapping (display_segments display) -> a = showdynSnackbar overlap_message) /\
    (~ overlapping (display_segments display) ->
     a = updateDisplayConfig (display_id display) (display_segments display)).
Proof.
  intros (b & Hb & Hiff)%validate_ordinary_overlapping.
  unfold handleSave, dispatch. rewrite Hb. destruct b.
  - eexists. split; [done|]. split; [done|]. intros Hno. destruct Hno. by apply Hiff.
  - eexists. split; [done|]. split; [|done]. intros Hov%Hiff. done.
Qed.

(** Pairwise distinct ordinary names never overlap. *)
Lemma distinct_names_not_overlapping segs :
  NoDup (seg_name <$> segs) -> ~ overlapping segs.
Proof.
  intros Hnodup (i & j & si & sj & Hlt & Hi & Hj & Hname & _).
  assert (i = j); [|lia].
  eapply NoDup_lookup; [done| |].
  - rewrite list_lookup_fmap, Hi. reflexivity.
  - rewrite list_lookup_fmap, Hj. simpl. by rewrite Hname.
Qed.

Lemma handleSave_distinct_ordinary display store :
  NoDup (seg_name <$> display_segments display) ->
  Forall (fun s => ordinary (seg_name s) = true) (display_segments display) ->
  validate (display_segments display) = Normal false /\
  handleSave display store =
    (Normal tt,
     store ++ [updateDisplayConfig (display_id display) (display_segments display)]).
Proof.
  intros Hnodup Hord. apply distinct_names_not_overlapping in Hnodup.
  destruct (validate_ordinary_overlapping _ Hord) as (b & Hb & Hiff).
  destruct b; [destruct Hnodup; by apply Hiff|].
  split; [done|]. unfold handleSave, dispatch. by rewrite Hb.
Qed.

(** ** Concrete sequences *)

(** Boundary equality counts as overlap, the comparison being [>=]: under
    an ordinary name the ranges (0,5) then (5,10) make the validator report
    [overlap == true], whatever the fourth elements are. *)
Theorem boundary_equality_overlaps (name : string) (bool1 bool2 : bool) :
  ordinary name = true ->
  validate [mkSegment name 0 5 bool1; mkSegment name 5 10 bool2] = Normal true.
Proof.
  intros Hord. rewrite validate_closed_form. simpl. rewrite Hord. simpl.
  by rewrite bool_decide_eq_true_2.
Qed.

Lemma boundary_equality_overlaps_witness :
  ordinary "strip" = true /\
  validate [mkSegment "strip" 0 5 false; mkSegment "strip" 5 10 false] = Normal true.
Proof.
  split; [reflexivity|].
  apply (boundary_equality_overlaps "strip" false false). reflexivity.
Defined.

(** C2, as stated, fails: with the ranges (10,20) then (0,5) under one
    name the validator does not report [overlap == false]. *)
Lemma disjoint_later_range_not_accepted :
  validate [mkSegment "strip" 10 20 false; mkSegment "strip" 0 5 false]
  <> Normal false.
Proof. vm_compute. discriminate. Qed.

(** C2, amended: a single name with the ranges (10,20) then (0,5): the
    validator reports [overlap == true], since the end 20 of the first
    range is [>=] the start 0 of the second. *)
Theorem disjoint_later_range_overlaps (name : string) (bool1 bool2 : bool) :
  ordinary name = true ->
  validate [mkSegment name 10 20 bool1; mkSegment name 0 5 bool2] = Normal true.
Proof.
  intros Hord. rewrite validate_closed_form. simpl. rewrite Hord. simpl.
  by rewrite bool_decide_eq_true_2.
Qed.

Lemma disjoint_later_range_overlaps_witness :
  ordinary "strip" = true /\
  validate [mkSegment "strip" 10 20 false; mkSegment "strip" 0 5 false] = Normal true.
Proof.
  split; [reflexivity|].
  apply (disjoint_later_range_overlaps "strip" false false). reflexivity.
Defined.

(** C7: on the empty sequence the validator reports [overlap == false] and
    the handler dispatches the store update carrying the empty sequence. *)
Theorem empty_sequence_saved (id config_name : string) (store : list Action) :
  validate [] = Normal false /\
  handleSave (mkDisplay id config_name []) store =
    (Normal tt, store ++ [updateDisplayConfig id []]).
Proof. split; reflexivity. Qed.

(** ** Names inherited from [Object.prototype] *)

(** C1 at a failing input: two segments named "constructor" overlap in the
    sense of the claim (positions 0 < 1, end 5 >= start 3), yet the
    validator reports nothing: it throws. *)
Theorem constructor_overlap_not_reported :
  overlapping [mkSegment "constructor" 0 5 false; mkSegment "constructor" 3 10 false]
  /\ validate [mkSegment "constructor" 0 5 false; mkSegment "constructor" 3 10 false]
     = Throw.
Proof.
  split; [|vm_compute; reflexivity].
  exists 0%nat, 1%nat, (mkSegment "constructor" 0 5 false),
    (mkSegment "constructor" 3 10 false).
  repeat split; [lia|simpl; lia].
Qed.

(** C4 at a failing input: a single name, "constructor", with exactly the
    ranges (0,5) then (5,10).  The boundary 5 >= 5 is never compared and the
    validator does not report [overlap == true]: it throws on the first
    segment, and the save attempt dispatches nothing. *)
Theorem constructor_boundary_not_reported (store : list Action) :
  validate [mkSegment "constructor" 0 5 false; mkSegment "constructor" 5 10 false]
  = Throw /\
  handleSave
    (mkDisplay "wall" "Wall"
       [mkSegment "constructor" 0 5 false; mkSegment "constructor" 5 10 false])
    store
  = (Throw, store).
Proof. split; [vm_compute; reflexivity|reflexivity]. Qed.

(** C3 at a failing input: a save attempt on a display whose only segment
    is named "constructor" dispatches neither action. *)
Theorem constructor_nothing_dispatched (store : list Action) :
  handleSave (mkDisplay "wall" "Wall" [mkSegment "constructor" 0 5 false]) store
  = (Throw, store).
Proof. reflexivity. Qed.

(** C5 at a failing input: the names "strip" and "constructor" are pairwise
    distinct, yet the validator does not report [overlap == false] and no
    store update is dispatched. *)
Theorem distinct_names_not_saved :
  NoDup ["strip"; "constructor"] /\
  validate [mkSegment "strip" 0 5 false; mkSegment "constructor" 6 10 false] = Throw /\
  handleSave
    (mkDisplay "wall" "Wall"
       [mkSegment "strip" 0 5 false; mkSegment "constructor" 6 10 false]) []
  = (Throw, []).
Proof.
  split; [|split; vm_compute; reflexivity].
  apply NoDup_cons. split; [|apply NoDup_singleton].
  intros Hin%list_elem_of_singleton. discriminate.
Qed.

(** ** Payloads *)

(** C8: when the validator reports [overlap == false] the handler
    dispatches the store update carrying [{ id: display.id, data:
    display.segments }], the sequence being the input itself; when it
    reports [overlap == true] the handler dispatches the notification with
    the message 'Overlapping detected! Please Check your config'. *)
Theorem dispatched_payload (display : Display) (store : list Action) (b : bool) :
  validate (display_segments display) = Normal b ->
  handleSave display store =
    (Normal tt,
     store ++
       [if b then showdynSnackbar "Overlapping detected! Please Check your config"
        else updateDisplayConfig (display_id display) (display_segments display)]).
Proof. intros Hb. unfold handleSave. rewrite Hb. by destruct b. Qed.

Lemma dispatched_payload_witness :
  (validate [mkSegment "strip" 0 5 false; mkSegment "strip" 8 12 true] = Normal false /\
   handleSave
     (mkDisplay "wall" "Wall" [mkSegment "strip" 0 5 false; mkSegment "strip" 8 12 true])
     [] =
   (Normal tt,
    [updateDisplayConfig "wall"
       [mkSegment "strip" 0 5 false; mkSegment "strip" 8 12 true]])) /\
  (validate [mkSegment "strip" 0 5 false; mkSegment "strip" 5 12 true] = Normal true /\
   handleSave
     (mkDisplay "wall" "Wall" [mkSegment "strip" 0 5 false; mkSegment "strip" 5 12 true])
     [] =
   (Normal tt, [showdynSnackbar "Overlapping detected! Please Check your config"])).
Proof.
  split; (split; [vm_compute; reflexivity|]).
  - apply (dispatched_payload
             (mkDisplay "wall" "Wall"
                [mkSegment "strip" 0 5 false; mkSegment "strip" 8 12 true]) [] false).
    vm_compute. reflexivity.
  - apply (dispatched_payload
             (mkDisplay "wall" "Wall"
                [mkSegment "strip" 0 5 false; mkSegment "strip" 5 12 true]) [] true).
    vm_compute. reflexivity.
Defined.

(** ** Grouping by name *)

Lemma foldr_or_completion_Normal (f : string -> bool) (names : list string) :
  foldr or_completion (Normal false) ((fun name => Normal (f name)) <$> names)
  = Normal (existsb f names).
Proof.
  induction names as [|n names IH]; [done|].
  rewrite fmap_cons. cbn [foldr]. by rewrite IH.
Qed.

Lemma foldr_or_completion_Throw (runs : list (Completion bool)) :
  Throw ∈ runs -> foldr or_completion (Normal false) runs = Throw.
Proof.
  induction runs as [|r runs IH]; intros Hin; [by apply elem_of_nil in Hin|].
  simpl. apply elem_of_cons in Hin as [<-|Hin]; [done|].
  rewrite IH by done. by destruct r.
Qed.

Lemma only_ordinary name segs :
  forallb (fun s => ordinary (seg_name s)) segs = true ->
  forallb (fun s => ordinary (seg_name s)) (only name segs) = true.
Proof.
  rewrite !forallb_ordinary. unfold only. rewrite !Forall_forall.
  intros Hall s [_ Hs]%list_elem_of_filter. by apply Hall.
Qed.

Lemma names_of_complete segs s : s ∈ segs -> seg_name s ∈ names_of segs.
Proof.
  intros Hs. unfold names_of. apply elem_of_remove_dups.
  by apply list_elem_of_fmap_2.
Qed.

(** C6: the result is the disjunction, over the distinct names of the
    sequence, of the validator run on the segments of that name alone (in
    their original order); a run that throws makes the disjunction throw. *)
Theorem validate_per_name (segs : list Segment) :
  validate segs =
    foldr or_completion (Normal false)
      ((fun name => validate (only name segs)) <$> names_of segs).
Proof.
  rewrite validate_closed_form.
  destruct (forallb _ segs) eqn:Hall.
  - rewrite (list_fmap_ext _
               (fun name => Normal (overlaps_from [] (only name segs)))).
    + rewrite foldr_or_completion_Normal.
      f_equal. apply (overlaps_from_names (names_of segs) segs []).
      apply names_of_complete.
    + intros _ name _. by rewrite validate_closed_form, only_ordinary.
  - symmetry. apply foldr_or_completion_Throw.
    apply not_true_iff_false in Hall. rewrite forallb_ordinary in Hall.
    apply not_Forall_Exists in Hall; [|solve_decision].
    apply Exists_exists in Hall as (s & Hs & Hinh).
    apply list_elem_of_fmap. exists (seg_name s).
    split; [|by apply names_of_complete].
    symmetry. apply validate_throw_iff. apply Exists_exists. exists s.
    split; [|simpl in Hinh; by destruct (ordinary _)].
    apply list_elem_of_filter. done.
Qed.

(** ** The fourth tuple element *)


Lemma callback_unflagged (sc : Scope) (s : Segment) :
  callback sc (unflagged s) = callback sc s.
Proof. reflexivity. Qed.

Lemma forEach_callback_unflagged (segs : list Segment) (sc : Scope) :
  forEach callback (unflagged <$> segs) sc = forEach callback segs sc.
Proof.
  revert sc. induction segs as [|s segs IH]; intros sc; [done|].
  rewrite fmap_cons. cbn [forEach].
  rewrite callback_unflagged. destruct (callback sc s); [apply IH|done].
Qed.

Lemma same_range_unflagged (segs1 segs2 : list Segment) :
  Forall2 same_range segs1 segs2 -> unflagged <$> segs1 = unflagged <$> segs2.
Proof.
  induction 1 as [|s1 s2 l1 l2 (Hname & Hstart & Hend) _ IH]; [done|].
  rewrite !fmap_cons, IH. unfold unflagged. by rewrite Hname, Hstart, Hend.
Qed.

(** C9: two sequences that agree on name, start and end at every position
    (and differ at most in the fourth tuple elements) get the same result
    from the validator. *)
Theorem validate_ignores_flag (segs1 segs2 : list Segment) :
  Forall2 same_range segs1 segs2 -> validate segs1 = validate segs2.
Proof.
  intros Hsame%same_range_unflagged. unfold validate.
  by rewrite <- (forEach_callback_unflagged segs1),
             <- (forEach_callback_unflagged segs2), Hsame.
Qed.

Lemma validate_ignores_flag_witness :
  Forall2 same_range
    [mkSegment "strip" 0 5 false; mkSegment "strip" 5 10 false]
    [mkSegment "strip" 0 5 true; mkSegment "strip" 5 10 false] /\
  validate [mkSegment "strip" 0 5 false; mkSegment "strip" 5 10 false] =
  validate [mkSegment "strip" 0 5 true; mkSegment "strip" 5 10 false].
Proof.
  assert (Forall2 same_range
            [mkSegment "strip" 0 5 false; mkSegment "strip" 5 10 false]
            [mkSegment "strip" 0 5 true; mkSegment "strip" 5 10 false]) as Hsame.
  { repeat constructor. }
  split; [exact Hsame|].
  exact (validate_ignores_flag _ _ Hsame).
Defined.

(** * Properties of the store-level handler *)

(** ** Running the primitives *)

Lemma run_bind {A B} (m : M A) (k : A -> M B) (w : World) (a : A) (w' : World) :
  m w = Ret a w' -> bind m k w = k a w'.
Proof. unfold bind. by intros ->. Qed.

Lemma run_bind_Exn {A B} (m : M A) (k : A -> M B) (w w' : World) :
  m w = Exn w' -> bind m k w = Exn w'.
Proof. unfold bind. by intros ->. Qed.

(** [run H] steps over the first computation of a sequence, [H] saying
    how it runs. *)
Tactic Notation "run" uconstr(H) := rewrite (run_bind _ _ _ _ _ H).

Section Store.

Implicit Types (h : gmap loc obj) (w : World) (l : loc) (v : val).

Lemma run_load w l o : heap w !! l = Some o -> load l w = Ret o w.
Proof. unfold load. by intros ->. Qed.

Lemma fresh_unused h : h !! fresh (dom h) = None.
Proof. apply not_elem_of_dom, is_fresh. Qed.

Lemma fresh_differs h l o : h !! l = Some o -> l <> fresh (dom h).
Proof. intros Hl ->. by rewrite fresh_unused in Hl. Qed.

(** *** Reading is monotone in the heap *)

Lemma read_segment_weaken h h' v s :
  h ⊆ h' -> read_segment h v = Some s -> read_segment h' v = Some s.
Proof.
  intros Hsub. unfold read_segment. destruct v as [| | | |l|]; try done.
  destruct (h !! l) as [o|] eqn:Hl; [|done].
  by rewrite (lookup_weaken _ _ _ _ Hl Hsub).
Qed.

Lemma read_segments_weaken h h' v segs :
  h ⊆ h' -> read_segments h v = Some segs -> read_segments h' v = Some segs.
Proof.
  intros Hsub. unfold read_segments. destruct v as [| | | |l|]; try done.
  destruct (h !! l) as [o|] eqn:Hl; [|done].
  rewrite (lookup_weaken _ _ _ _ Hl Hsub).
  destruct o as [elems|]; [|done].
  rewrite !mapM_Some. intros Hall.
  eapply Forall2_impl; [exact Hall|]. intros v s. by apply read_segment_weaken.
Qed.

Lemma read_config_name_weaken h h' v name :
  h ⊆ h' -> read_config_name h v = Some name -> read_config_name h' v = Some name.
Proof.
  intros Hsub. unfold read_config_name. destruct v as [| | | |l|]; try done.
  destruct (h !! l) as [o|] eqn:Hl; [|done].
  by rewrite (lookup_weaken _ _ _ _ Hl Hsub).
Qed.

Lemma read_display_weaken h h' l display :
  h ⊆ h' -> read_display h l = Some display -> read_display h' l = Some display.
Proof.
  intros Hsub. unfold read_display.
  destruct (h !! l) as [o|] eqn:Hl; [|done].
  rewrite (lookup_weaken _ _ _ _ Hl Hsub).
  destruct o as [|props]; [done|].
  destruct (props !! "id") as [[| | |id| |]|]; try done.
  destruct (props !! "config") as [config|]; [|done].
  destruct (props !! "segments") as [segments|]; [|done].
  destruct (read_config_name h config) as [name|] eqn:Hname; [|done].
  destruct (read_segments h segments) as [segs|] eqn:Hsegs; [|done].
  rewrite (read_config_name_weaken _ _ _ _ Hsub Hname).
  by rewrite (read_segments_weaken _ _ _ _ Hsub Hsegs).
Qed.

Lemma read_segment_Some h v s :
  read_segment h v = Some s ->
  exists l, v = VRef l /\
    h !! l = Some (OArray [VStr (seg_name s); VNum (seg_start s);
                           VNum (seg_end s); VBool (seg_flag s)]).
Proof.
  unfold read_segment. intros Hread.
  repeat case_match; simplify_eq. eexists. split; [done|]. simpl. done.
Qed.

(** *** Running the operations on objects and arrays *)

Lemma run_destructure w l elems :
  heap w !! l = Some (OArray elems) -> destructure (VRef l) w = Ret elems w.
Proof. intros Hl. unfold destructure. by run (run_load _ _ _ Hl). Qed.

Lemma run_has_prop w l props name :
  heap w !! l = Some (OObject props) ->
  has_prop l name w =
    Ret (match props !! name with
         | Some _ => true
         | None => match inherited name with Some _ => true | None => false end
         end) w.
Proof. intros Hl. unfold has_prop. by run (run_load _ _ _ Hl). Qed.

Lemma run_get_prop w l props name :
  heap w !! l = Some (OObject props) ->
  get_prop (VRef l) name w =
    Ret (match props !! name with
         | Some v => v
         | None =>
             match inherited name with
             | Some b => VBuiltin b
             | None => VUndefined
             end
         end) w.
Proof. intros Hl. unfold get_prop. by run (run_load _ _ _ Hl). Qed.

Lemma run_set_prop w l props name v :
  heap w !! l = Some (OObject props) ->
  set_prop l name v w =
    Ret tt (mkWorld (<[l := OObject (<[name := v]> props)]> (heap w)) (store w)).
Proof. intros Hl. unfold set_prop. by run (run_load _ _ _ Hl). Qed.

Lemma run_push_at w l elems v :
  heap w !! l = Some (OArray elems) ->
  push_at (VRef l) v w =
    Ret tt (mkWorld (<[l := OArray (elems ++ [v])]> (heap w)) (store w)).
Proof. intros Hl. unfold push_at. by run (run_load _ _ _ Hl). Qed.

Lemma run_alloc w o :
  alloc o w =
    Ret (fresh (dom (heap w)))
        (mkWorld (<[fresh (dom (heap w)) := o]> (heap w)) (store w)).
Proof. reflexivity. Qed.

End Store.

(** ** Simulation of the value-level scope *)

Section Simulation.

(** The heap and the store the handler was started in, and the address of
    the object literal [output]. *)
Variables (h0 : gmap loc obj) (st0 : list StoreAction) (lo : loc).

Implicit Types (h : gmap loc obj) (w : World) (l : loc) (v : val).


Lemma run_scan_at w start (lps : list loc) ranges ov :
  Forall2 (fun lp r => heap w !! lp = Some (OArray [VNum r.1; VNum r.2])) lps ranges ->
  scan_at start (VRef <$> lps) ov w = Ret (scan start ranges ov) w.
Proof.
  intros Hall. revert ov.
  induction Hall as [|lp [tmpStart tmpEnd] lps ranges Hlp _ IH]; intros ov; [done|].
  rewrite fmap_cons. cbn [scan_at].
  run (run_destructure _ _ _ Hlp).
  cbn [pattern_var lookup list_lookup default snd]. simpl. apply IH.
Qed.

Lemma run_for_loop_at w start la (lps : list loc) ranges ov :
  heap w !! la = Some (OArray (VRef <$> lps)) ->
  Forall2 (fun lp r => heap w !! lp = Some (OArray [VNum r.1; VNum r.2])) lps ranges ->
  for_loop_at (VRef la) start ov w = Ret (scan start ranges ov) w.
Proof.
  intros Hla Hall. unfold for_loop_at.
  run (run_load _ _ _ Hla). by apply run_scan_at.
Qed.

Lemma callback_own sc s ranges :
  output sc !! seg_name s = Some ranges ->
  callback sc s =
    Normal (mkScope (<[seg_name s := ranges ++ [range s]]> (output sc))
                    (scan (seg_start s) ranges (overlap sc))).
Proof.
  intros Hown. unfold callback, has_property, get_property. cbv zeta.
  rewrite Hown. cbn [for_loop push]. by rewrite Hown.
Qed.


Lemma pairs_insert h l o (lps : list loc) (ranges : list (Z * Z)) :
  not_a_pair h l ->
  Forall2 (fun lp r => h !! lp = Some (OArray [VNum r.1; VNum r.2])) lps ranges ->
  Forall2 (fun lp r => <[l := o]> h !! lp = Some (OArray [VNum r.1; VNum r.2]))
          lps ranges.
Proof.
  intros Hl Hall. eapply Forall2_impl; [exact Hall|].
  intros lp r Hlp. simpl in *. rewrite lookup_insert_ne; [done|].
  intros ->. by apply (Hl r.1 r.2).
Qed.

Lemma group_at_insert h l o v ranges :
  not_a_pair h l -> v <> VRef l ->
  group_at h0 h v ranges -> group_at h0 (<[l := o]> h) v ranges.
Proof.
  intros Hl Hv (la & lps & -> & Hnew & Hla & Hall).
  exists la, lps. split; [done|]. split; [done|]. split.
  - rewrite lookup_insert_ne; [done|]. congruence.
  - by apply pairs_insert.
Qed.

Lemma not_a_pair_unused h l : h !! l = None -> not_a_pair h l.
Proof. intros Hl r1 r2. by rewrite Hl. Qed.

Lemma not_a_pair_empty h l : h !! l = Some (OArray []) -> not_a_pair h l.
Proof. intros Hl r1 r2. by rewrite Hl. Qed.

Lemma not_a_pair_object h l props : h !! l = Some (OObject props) -> not_a_pair h l.
Proof. intros Hl r1 r2. by rewrite Hl. Qed.

Lemma not_a_pair_group h l (lps : list loc) :
  h !! l = Some (OArray (VRef <$> lps)) -> not_a_pair h l.
Proof.
  intros Hl r1 r2. rewrite Hl. intros [= Heq].
  destruct lps as [|lp lps]; discriminate.
Qed.

Lemma group_at_allocated h v ranges :
  group_at h0 h v ranges -> exists la o, v = VRef la /\ h !! la = Some o.
Proof. intros (la & lps & -> & _ & Hla & _). by eauto. Qed.

(** One round of [forEach]: the store-level callback follows the
    value-level one. *)
Lemma callback_at_sim sc w v s :
  sim h0 st0 lo sc w -> read_segment h0 v = Some s ->
  match callback sc s with
  | Normal sc' =>
      exists w', callback_at lo (overlap sc) v w = Ret (overlap sc') w' /\
                 sim h0 st0 lo sc' w'
  | Throw =>
      exists w', callback_at lo (overlap sc) v w = Exn w' /\
                 h0 ⊆ heap w' /\ store w' = st0
  end.
Proof.
  intros (Hsub & Hst & Hlo & props & Hout & Hprops & Hinj) Hread.
  apply read_segment_Some in Hread as (lt & -> & Hlt).
  destruct s as [name start end_ someBool]. simpl in Hlt.
  pose proof (lookup_weaken _ _ _ _ Hlt Hsub) as Hlt'.
  unfold callback_at.
  run (run_destructure _ _ _ Hlt').
  cbn [pattern_var lookup list_lookup default from_option id].
  run (run_has_prop _ _ _ name Hout).
  pose proof (Hprops name) as Hname.
  destruct (props !! name) as [target|] eqn:Hown.
  - destruct Hname as (ranges & Hranges & la & lps & -> & Hla0 & Hla & Hall).
    rewrite (callback_own _ _ ranges) by done.
    cbn [seg_name seg_start seg_end range output overlap].
    rewrite (run_bind (ret tt) _ w tt w) by done.
    run (run_get_prop _ _ _ name Hout). rewrite Hown.
    run (run_for_loop_at _ start _ _ _ (overlap sc) Hla Hall).
    run (run_alloc _ _).
    set (lp := fresh (dom (heap w))).
    assert (heap w !! lp = None) as Hlp by apply fresh_unused.
    assert (la <> lp) as Hne by (by eapply fresh_differs).
    set (h1 := <[lp := OArray [VNum start; VNum end_]]> (heap w)).
    assert (h1 !! la = Some (OArray (VRef <$> lps))) as Hla1.
    { unfold h1. by rewrite lookup_insert_ne. }
    run (run_push_at (mkWorld h1 (store w)) la _ _ Hla1).
    eexists. split; [reflexivity|].
    assert (h0 !! lp = None) as Hlp0 by (by eapply lookup_weaken_None).
    assert (lo <> la) as Hlola by congruence.
    assert (lo <> lp) as Hlolp by (by eapply fresh_differs).
    split; [|split; [done|split; [done|]]]; cbn [heap store output].
    { apply insert_subseteq_r; [done|]. by apply insert_subseteq_r. }
    exists props. split; [|split; [|done]].
    { unfold h1. by rewrite !lookup_insert_ne. }
    intros m. destruct (decide (m = name)) as [->|Hm].
    + rewrite Hown. exists (ranges ++ [(start, end_)]).
      split; [by rewrite lookup_insert_eq|].
      exists la, (lps ++ [lp]). split; [done|]. split; [done|]. split.
      * by rewrite lookup_insert_eq, fmap_app.
      * apply Forall2_app.
        -- apply pairs_insert; [by eapply not_a_pair_group|].
           apply pairs_insert; [by apply not_a_pair_unused|done].
        -- constructor; [|constructor]. simpl.
           rewrite lookup_insert_ne by done. unfold h1. by rewrite lookup_insert_eq.
    + rewrite lookup_insert_ne by done.
      pose proof (Hprops m) as Hgroup.
      destruct (props !! m) as [v|] eqn:Hpm; [|done].
      destruct Hgroup as (ranges' & Hranges' & Hgroup).
      exists ranges'. split; [done|].
      destruct (group_at_allocated _ _ _ Hgroup) as (la' & o & -> & Hla').
      apply group_at_insert; [by eapply not_a_pair_group| |].
      { intros [= ->]. apply Hm. by eapply Hinj. }
      apply group_at_insert; [by apply not_a_pair_unused| |done].
      intros [= ->]. by rewrite Hlp in Hla'.
  - destruct (inherited name) as [b|] eqn:Hinh.
    + rewrite callback_inherited; [|done|by unfold ordinary; simpl; rewrite Hinh].
      rewrite (run_bind (ret tt) _ w tt w) by done.
      run (run_get_prop _ _ _ name Hout). rewrite Hown, Hinh.
      destruct b as [[|n]|]; (eexists; split; [reflexivity|]); cbn [heap store].
      * split; [|done]. apply insert_subseteq_r; [|done].
        eapply lookup_weaken_None; [apply fresh_unused|done].
      * done.
      * split; [|done]. apply insert_subseteq_r; [|done].
        eapply lookup_weaken_None; [apply fresh_unused|done].
    + rewrite callback_ordinary by (by unfold ordinary; simpl; rewrite Hinh).
      unfold place. cbn [seg_name seg_start seg_end range output overlap].
      rewrite Hname. cbn [default from_option scan fold_left].
      rewrite (run_bind _ _ w tt
                 (mkWorld (<[lo := OObject (<[name := VRef (fresh (dom (heap w)))]> props)]>
                             (<[fresh (dom (heap w)) := OArray []]> (heap w)))
                          (store w))).
      2:{ run (run_alloc _ _).
          rewrite (run_set_prop _ lo props); [done|]. cbn [heap].
          rewrite lookup_insert_ne; [done|]. intros Heq.
          by eapply (fresh_differs _ lo). }
      set (la := fresh (dom (heap w))).
      assert (heap w !! la = None) as Hla by apply fresh_unused.
      assert (lo <> la) as Hlola by (by eapply fresh_differs).
      set (h1 := <[la := OArray []]> (heap w)).
      set (props2 := <[name := VRef la]> props).
      set (h2 := <[lo := OObject props2]> h1).
      assert (h2 !! lo = Some (OObject props2)) as Hout2.
      { unfold h2. by rewrite lookup_insert_eq. }
      assert (h2 !! la = Some (OArray (VRef <$> []))) as Hla2.
      { unfold h2, h1. rewrite lookup_insert_ne by done. by rewrite lookup_insert_eq. }
      run (run_get_prop (mkWorld h2 (store w)) lo _ name Hout2).
      assert (props2 !! name = Some (VRef la)) as Htarget.
      { unfold props2. by rewrite lookup_insert_eq. }
      rewrite Htarget.
      rewrite (run_bind _ _ _ _ _
                 (run_for_loop_at (mkWorld h2 (store w)) start la [] [] (overlap sc)
                    Hla2 ltac:(constructor))).
      run (run_alloc _ _). cbn [heap store].
      set (lp := fresh (dom h2)).
      assert (h2 !! lp = None) as Hlp by apply fresh_unused.
      assert (la <> lp) as Hlalp by (by eapply fresh_differs).
      assert (lo <> lp) as Hlolp by (by eapply fresh_differs).
      set (h3 := <[lp := OArray [VNum start; VNum end_]]> h2).
      assert (h3 !! la = Some (OArray [])) as Hla3.
      { unfold h3. by rewrite lookup_insert_ne. }
      run (run_push_at (mkWorld h3 (store w)) la _ _ Hla3).
      eexists. split; [reflexivity|]. cbn [heap store scan fold_left].
      assert (h0 !! la = None) as Hla0 by (by eapply lookup_weaken_None).
      assert (h0 ⊆ h2) as Hsub2.
      { apply insert_subseteq_r; [done|]. by apply insert_subseteq_r. }
      assert (h0 !! lp = None) as Hlp0 by (by eapply lookup_weaken_None).
      split; [|split; [done|split; [done|]]]; cbn [heap store output].
      { apply insert_subseteq_r; [done|]. by apply insert_subseteq_r. }
      exists props2. split; [|split].
      { unfold h3. by rewrite !lookup_insert_ne. }
      * intros m. destruct (decide (m = name)) as [->|Hm].
        -- unfold props2. rewrite lookup_insert_eq. exists [(start, end_)].
           split; [by rewrite lookup_insert_eq|].
           exists la, [lp]. split; [done|]. split; [done|].
           split; [by rewrite lookup_insert_eq|].
           constructor; [|constructor]. simpl.
           rewrite lookup_insert_ne by done. unfold h3. by rewrite lookup_insert_eq.
        -- unfold props2. rewrite !lookup_insert_ne by done.
           pose proof (Hprops m) as Hgroup.
           destruct (props !! m) as [v|] eqn:Hpm; [|done].
           destruct Hgroup as (ranges' & Hranges' & Hgroup).
           exists ranges'. split; [done|].
           destruct (group_at_allocated _ _ _ Hgroup) as (la' & o & -> & Hla').
           assert (la' <> la) by congruence.
           assert (la' <> lo).
           { destruct Hgroup as (? & ? & [= <-] & _ & Hg & _). congruence. }
           apply group_at_insert; [exact (not_a_pair_empty _ _ Hla3)|congruence|].
           apply group_at_insert; [by apply not_a_pair_unused| |].
           { intros [= ->]. unfold h2, h1 in Hlp.
             rewrite !lookup_insert_ne in Hlp by done. congruence. }
           apply group_at_insert; [|congruence|].
           { apply (not_a_pair_object _ _ props). unfold h1.
             by rewrite lookup_insert_ne. }
           apply group_at_insert; [by apply not_a_pair_unused|congruence|done].
      * assert (forall m, props !! m <> Some (VRef la)) as Hnew.
        { intros m Hpm. pose proof (Hprops m) as Hgroup. rewrite Hpm in Hgroup.
          destruct Hgroup as (? & _ & Hgroup).
          destruct (group_at_allocated _ _ _ Hgroup) as (? & ? & [= <-] & Hsome).
          congruence. }
        intros n1 n2 v. unfold props2.
        destruct (decide (n1 = name)) as [->|Hn1], (decide (n2 = name)) as [->|Hn2];
          [done|..].
        -- rewrite lookup_insert_eq, lookup_insert_ne by done.
           intros [= <-] Hpm. by apply Hnew in Hpm.
        -- rewrite lookup_insert_eq, lookup_insert_ne by done.
           intros Hpm [= <-]. by apply Hnew in Hpm.
        -- rewrite !lookup_insert_ne by done. apply Hinj.
Qed.

Lemma forEach_from_sim ls elems segs :
  h0 !! ls = Some (OArray elems) ->
  Forall2 (fun v s => read_segment h0 v = Some s) elems segs ->
  forall (n k : nat) sc w,
    (k + n = length elems)%nat -> sim h0 st0 lo sc w ->
    match forEach callback (drop k segs) sc with
    | Normal sc' =>
        exists w', forEach_from (callback_at lo) ls k n (overlap sc) w
                   = Ret (overlap sc') w' /\ sim h0 st0 lo sc' w'
    | Throw =>
        exists w', forEach_from (callback_at lo) ls k n (overlap sc) w = Exn w' /\
                   h0 ⊆ heap w' /\ store w' = st0
    end.
Proof.
  intros Hls Hall. pose proof (Forall2_length _ _ _ Hall) as Hlen.
  induction n as [|n IH]; intros k sc w Hk Hsim.
  - rewrite drop_ge by lia. simpl. by exists w.
  - destruct (lookup_lt_is_Some_2 elems k) as [v Hv]; [lia|].
    destruct (Forall2_lookup_l _ _ _ _ _ Hall Hv) as (s & Hs & Hread).
    rewrite (drop_S _ _ _ Hs). cbn [forEach forEach_from].
    assert (heap w !! ls = Some (OArray elems)) as Hls'.
    { destruct Hsim as (Hsub & _). by eapply lookup_weaken. }
    run (run_load _ _ _ Hls'). rewrite Hv.
    pose proof (callback_at_sim _ _ _ _ Hsim Hread) as Hstep.
    destruct (callback sc s) as [sc'|].
    + destruct Hstep as (w' & Hrun & Hsim').
      run Hrun. apply IH; [lia|done].
    + destruct Hstep as (w' & Hrun & Hframe).
      rewrite (run_bind_Exn _ _ _ _ Hrun). by exists w'.
Qed.

End Simulation.

(** ** Refinement and frame *)

Section Refinement.

Implicit Types (h : gmap loc obj) (w : World) (l : loc) (v : val).

Lemma sim_initial w :
  sim (heap w) (store w) (fresh (dom (heap w))) (mkScope ∅ false)
      (mkWorld (<[fresh (dom (heap w)) := OObject ∅]> (heap w)) (store w)).
Proof.
  unfold sim. cbn [heap store output].
  split; [apply insert_subseteq, fresh_unused|].
  split; [done|]. split; [apply fresh_unused|].
  exists ∅. split; [by rewrite lookup_insert_eq|].
  split; [intros name; by rewrite !lookup_empty|].
  intros n1 n2 v Hn1. by rewrite lookup_empty in Hn1.
Qed.

(** The store-level handler computes what the value-level handler
    computes on the display read from the heap, and leaves every cell of
    the heap it was started in as it was. *)
Lemma handleSave_at_refines w dl display :
  read_display (heap w) dl = Some display ->
  exists w',
    handleSave_at dl w =
      match (handleSave display []).1 with
      | Normal _ => Ret tt w'
      | Throw => Exn w'
      end /\
    heap w ⊆ heap w' /\
    exists new,
      store w' = store w ++ new /\
      mapM (read_action (heap w')) new = Some (handleSave display []).2.
Proof.
  intros Hread. pose proof Hread as Hdisplay. unfold read_display in Hread.
  destruct (heap w !! dl) as [[|dprops]|] eqn:Hdl; try done.
  destruct (dprops !! "id") as [[| | |id| |]|] eqn:Hid; try done.
  destruct (dprops !! "config") as [config|] eqn:Hconfig; [|done].
  destruct (dprops !! "segments") as [segments|] eqn:Hsegments; [|done].
  destruct (read_config_name (heap w) config) as [cname|]; [|done].
  destruct (read_segments (heap w) segments) as [segs|] eqn:Hsegs; [|done].
  injection Hread as <-.
  pose proof Hsegs as Hsegs'. unfold read_segments in Hsegs'.
  destruct segments as [| | | |ls|]; try done.
  destruct (heap w !! ls) as [[elems|]|] eqn:Hls; try done.
  apply mapM_Some in Hsegs'.
  unfold handleSave_at, handleSave, validate. cbn [display_segments display_id].
  run (run_alloc _ _).
  pose proof (sim_initial w) as Hsim.
  set (lo := fresh (dom (heap w))) in *.
  set (w1 := mkWorld (<[lo := OObject ∅]> (heap w)) (store w)) in *.
  assert (heap w ⊆ heap w1) as Hsub1 by apply Hsim.
  pose proof (lookup_weaken _ _ _ _ Hdl Hsub1) as Hdl1.
  pose proof (lookup_weaken _ _ _ _ Hls Hsub1) as Hls1.
  run (run_get_prop _ _ _ "segments" Hdl1). rewrite Hsegments.
  pose proof (forEach_from_sim _ _ _ _ _ _ Hls Hsegs' (length elems) 0
                (mkScope ∅ false) w1 eq_refl Hsim) as Hloop.
  rewrite drop_0 in Hloop. cbn [overlap] in Hloop.
  unfold forEach_at.
  destruct (forEach callback segs (mkScope ∅ false)) as [sc|].
  - destruct Hloop as (w2 & Hrun & Hsub2 & Hst2 & _).
    rewrite (run_bind _ _ w1 (overlap sc) w2).
    2:{ by run (run_load _ _ _ Hls1). }
    pose proof (lookup_weaken _ _ _ _ Hdl Hsub2) as Hdl2.
    destruct (overlap sc).
    + eexists. split; [reflexivity|]. split; [done|].
      exists [showdynSnackbar_at overlap_message]. cbn [heap store snd].
      split; [by rewrite Hst2|]. reflexivity.
    + run (run_get_prop _ _ _ "id" Hdl2). rewrite Hid.
      run (run_get_prop _ _ _ "segments" Hdl2). rewrite Hsegments.
      eexists. split; [reflexivity|]. split; [done|].
      exists [updateDisplayConfig_at (VStr id) (VRef ls)]. cbn [heap store snd].
      split; [by rewrite Hst2|].
      cbn [mapM read_action]. by rewrite (read_segments_weaken _ _ _ _ Hsub2 Hsegs).
  - destruct Hloop as (w2 & Hrun & Hsub2 & Hst2).
    rewrite (run_bind_Exn _ _ w1 w2).
    2:{ by run (run_load _ _ _ Hls1). }
    exists w2. split; [done|]. split; [done|].
    exists []. split; [by rewrite app_nil_r|done].
Qed.

(** C10: a save attempt leaves its input as it was: whatever the outcome
    (notification, store update or a throw), every object that existed
    before the call, the display object, its segment array and the segment
    tuples among them, is unchanged afterwards, and the display read back
    from the heap is the one read before. *)
Theorem handleSave_at_frame (w : World) (dl : loc) (display : Display) :
  read_display (heap w) dl = Some display ->
  exists w',
    (handleSave_at dl w = Ret tt w' \/ handleSave_at dl w = Exn w') /\
    heap w ⊆ heap w' /\
    read_display (heap w') dl = Some display.
Proof.
  intros Hread.
  destruct (handleSave_at_refines w dl display Hread) as (w' & Hrun & Hsub & _).
  exists w'. split; [|split; [done|by eapply read_display_weaken]].
  destruct (handleSave display []).1; [by left|by right].
Qed.

Lemma handleSave_at_frame_witness :
  read_display demo_heap 1%positive =
    Some (mkDisplay "wall" "Wall"
            [mkSegment "strip" 0 5 false; mkSegment "strip" 5 10 true]) /\
  exists w',
    (handleSave_at 1%positive (mkWorld demo_heap []) = Ret tt w' \/
     handleSave_at 1%positive (mkWorld demo_heap []) = Exn w') /\
    demo_heap ⊆ heap w' /\
    read_display (heap w') 1%positive =
      Some (mkDisplay "wall" "Wall"
              [mkSegment "strip" 0 5 false; mkSegment "strip" 5 10 true]).
Proof.
  split; [vm_compute; reflexivity|].
  apply (handleSave_at_frame (mkWorld demo_heap []) 1%positive).
  vm_compute. reflexivity.
Defined.

End Refinement.

(** * Further properties of the value-level handler *)

(** ** What an accepted sequence guarantees *)

Lemma sharing_overlapping (segs : list Segment) : sharing segs -> overlapping segs.
Proof.
  intros (i & j & si & sj & Hne & Hi & Hj & Hname & p & [Hi1 Hi2] & [Hj1 Hj2]).
  destruct (decide (i < j)%nat) as [Hlt|Hge].
  - exists i, j, si, sj. repeat split; [done..|lia].
  - exists j, i, sj, si. repeat split; [lia|done..|lia].
Qed.

Lemma validate_false_not_overlapping (segs : list Segment) :
  validate segs = Normal false -> ~ overlapping segs.
Proof.
  rewrite validate_closed_form. destruct (forallb _ segs); [|done].
  intros [= Hfalse] Hov%overlaps_overlapping. congruence.
Qed.

(** X1: the validator has no false negatives.  When it reports
    [overlap == false], no two segments of one name, at distinct positions
    in any order, have a pixel in common. *)
Theorem accepted_segments_share_no_pixel (segs : list Segment) :
  validate segs = Normal false -> ~ sharing segs.
Proof.
  intros Hfalse Hsharing. apply (validate_false_not_overlapping _ Hfalse).
  by apply sharing_overlapping.
Qed.

Lemma accepted_segments_share_no_pixel_witness :
  validate [mkSegment "strip" 0 5 false; mkSegment "matrix" 0 5 false;
            mkSegment "strip" 6 9 true] = Normal false /\
  ~ sharing [mkSegment "strip" 0 5 false; mkSegment "matrix" 0 5 false;
             mkSegment "strip" 6 9 true].
Proof.
  assert (validate [mkSegment "strip" 0 5 false; mkSegment "matrix" 0 5 false;
                    mkSegment "strip" 6 9 true] = Normal false) as Hrun.
  { vm_compute. reflexivity. }
  split; [exact Hrun|].
  exact (accepted_segments_share_no_pixel _ Hrun).
Defined.

(** X2: on segments with [start <= end] that come, within each name, in
    the order of their starts, the one-directional test is exact: the
    validator reports [overlap == true] if and only if two segments of one
    name have a pixel in common. *)
Theorem sorted_segments_overlap_iff_sharing (segs : list Segment) :
  Forall (fun s => ordinary (seg_name s) = true) segs ->
  Forall (fun s => seg_start s <= seg_end s) segs ->
  sorted_within_names segs ->
  validate segs = Normal true <-> sharing segs.
Proof.
  intros Hord Hwf Hsorted.
  destruct (validate_ordinary_overlapping _ Hord) as (b & Hb & Hiff).
  rewrite Hb. split.
  - intros [= ->]. destruct Hiff as [Hov _].
    destruct (Hov eq_refl) as (i & j & si & sj & Hlt & Hi & Hj & Hname & Hge).
    exists i, j, si, sj. repeat split; [lia|done..|].
    exists (seg_start sj).
    pose proof (Hsorted i j si sj Hlt Hi Hj Hname).
    pose proof (Forall_lookup_1 _ _ _ _ Hwf Hj). simpl in *. lia.
  - intros Hov%sharing_overlapping. f_equal. by apply Hiff.
Qed.

Lemma sorted_segments_overlap_iff_sharing_witness :
  (Forall (fun s => ordinary (seg_name s) = true)
     [mkSegment "strip" 0 9 false; mkSegment "strip" 4 6 false] /\
   Forall (fun s => seg_start s <= seg_end s)
     [mkSegment "strip" 0 9 false; mkSegment "strip" 4 6 false] /\
   sorted_within_names [mkSegment "strip" 0 9 false; mkSegment "strip" 4 6 false]) /\
  (validate [mkSegment "strip" 0 9 false; mkSegment "strip" 4 6 false] = Normal true
   <-> sharing [mkSegment "strip" 0 9 false; mkSegment "strip" 4 6 false]).
Proof.
  assert (Forall (fun s => ordinary (seg_name s) = true)
            [mkSegment "strip" 0 9 false; mkSegment "strip" 4 6 false]) as Hord.
  { repeat constructor. }
  assert (Forall (fun s => seg_start s <= seg_end s)
            [mkSegment "strip" 0 9 false; mkSegment "strip" 4 6 false]) as Hwf.
  { repeat constructor; simpl; lia. }
  assert (sorted_within_names
            [mkSegment "strip" 0 9 false; mkSegment "strip" 4 6 false]) as Hsorted.
  { intros [|[|i]] [|[|j]] si sj Hlt Hi Hj _; simpl in *; simplify_eq; simpl; lia. }
  split; [done|].
  exact (sorted_segments_overlap_iff_sharing _ Hord Hwf Hsorted).
Defined.

(** ** Names inherited from [Object.prototype], in general *)

(** X3: a save attempt throws, dispatching nothing, exactly when some
    segment is named like a property inherited from [Object.prototype]. *)
Theorem handleSave_throw_iff (display : Display) (store : list Action) :
  handleSave display store = (Throw, store) <->
  Exists (fun s => ordinary (seg_name s) = false) (display_segments display).
Proof.
  rewrite <- validate_throw_iff. unfold handleSave.
  destruct (validate (display_segments display)) as [[|]|]; split; try done;
    intros [= ?].
Qed.

(** ** Ordinary names *)

(** X4: when no name is inherited from [Object.prototype], the validator
    returns, with [overlap == true] exactly when two positions [i < j] hold
    segments of one name with [end i >= start j], and [overlap == false]
    exactly when there are no such positions. *)
Theorem ordinary_names_overlap_iff (segs : list Segment) :
  Forall (fun s => ordinary (seg_name s) = true) segs ->
  (validate segs = Normal true <-> overlapping segs) /\
  (validate segs = Normal false <-> ~ overlapping segs).
Proof.
  intros Hord.
  destruct (validate_ordinary_overlapping _ Hord) as (b & -> & Hiff).
  destruct b; (split; split).
  - intros _. by apply Hiff.
  - done.
  - done.
  - intros Hno. destruct Hno. by apply Hiff.
  - done.
  - intros Hov%Hiff. done.
  - intros _ Hov%Hiff. done.
  - done.
Qed.

Lemma ordinary_names_overlap_iff_witness :
  Forall (fun s => ordinary (seg_name s) = true)
    [mkSegment "strip" 0 5 false; mkSegment "matrix" 2 8 false] /\
  (validate [mkSegment "strip" 0 5 false; mkSegment "matrix" 2 8 false] = Normal true
   <-> overlapping [mkSegment "strip" 0 5 false; mkSegment "matrix" 2 8 false]) /\
  (validate [mkSegment "strip" 0 5 false; mkSegment "matrix" 2 8 false] = Normal false
   <-> ~ overlapping [mkSegment "strip" 0 5 false; mkSegment "matrix" 2 8 false]).
Proof.
  assert (Forall (fun s => ordinary (seg_name s) = true)
            [mkSegment "strip" 0 5 false; mkSegment "matrix" 2 8 false]) as Hord.
  { repeat constructor. }
  split; [exact Hord|].
  exact (ordinary_names_overlap_iff _ Hord).
Defined.

(** X5: when no name is inherited from [Object.prototype], a save attempt
    dispatches exactly one action: the notification if and only if the
    segments overlap, the store update if and only if they do not. *)
Theorem ordinary_names_one_dispatch (display : Display) (store : list Action) :
  Forall (fun s => ordinary (seg_name s) = true) (display_segments display) ->
  exists a : Action,
    handleSave display store = (Normal tt, store ++ [a]) /\
    (a = showdynSnackbar overlap_message <-> overlapping (display_segments display)) /\
    (a = updateDisplayConfig (display_id display) (display_segments display)
     <-> ~ overlapping (display_segments display)).
Proof.
  intros (b & Hb & Hiff)%validate_ordinary_overlapping.
  unfold handleSave, dispatch. rewrite Hb. destruct b; eexists; (split; [done|]).
  - split; split; try done.
    + intros _. by apply Hiff.
    + intros Hno. destruct Hno. by apply Hiff.
  - split; split; try done.
    + intros Hov%Hiff. done.
    + intros _ Hov%Hiff. done.
Qed.

Lemma ordinary_names_one_dispatch_witness :
  Forall (fun s => ordinary (seg_name s) = true)
    [mkSegment "strip" 0 5 false; mkSegment "strip" 2 8 false] /\
  exists a : Action,
    handleSave
      (mkDisplay "wall" "Wall"
         [mkSegment "strip" 0 5 false; mkSegment "strip" 2 8 false]) []
    = (Normal tt, [] ++ [a]) /\
    (a = showdynSnackbar overlap_message <->
     overlapping [mkSegment "strip" 0 5 false; mkSegment "strip" 2 8 false]) /\
    (a = updateDisplayConfig "wall"
           [mkSegment "strip" 0 5 false; mkSegment "strip" 2 8 false]
     <-> ~ overlapping [mkSegment "strip" 0 5 false; mkSegment "strip" 2 8 false]).
Proof.
  assert (Forall (fun s => ordinary (seg_name s) = true)
            [mkSegment "strip" 0 5 false; mkSegment "strip" 2 8 false]) as Hord.
  { repeat constructor. }
  split; [exact Hord|].
  exact (ordinary_names_one_dispatch
           (mkDisplay "wall" "Wall"
              [mkSegment "strip" 0 5 false; mkSegment "strip" 2 8 false]) [] Hord).
Defined.

Lemma ordinary_overlap_decided (segs : list Segment) :
  Forall (fun s => ordinary (seg_name s) = true) segs ->
  overlapping segs \/ validate segs = Normal false.
Proof.
  intros (b & Hb & Hiff)%validate_ordinary_overlapping.
  destruct b; [left; by apply Hiff|by right].
Qed.

(** X6: a sequence of pairwise distinct names, none inherited from
    [Object.prototype], is always saved: the store update is dispatched
    with the sequence as it is, whatever the ranges are. *)
Theorem distinct_ordinary_names_saved (display : Display) (store : list Action) :
  NoDup (seg_name <$> display_segments display) ->
  Forall (fun s => ordinary (seg_name s) = true) (display_segments display) ->
  handleSave display store =
    (Normal tt,
     store ++ [updateDisplayConfig (display_id display) (display_segments display)]).
Proof.
  intros Hnodup Hord.
  destruct (ordinary_overlap_decided _ Hord) as [Hov|Hrun].
  - by apply distinct_names_not_overlapping in Hov.
  - unfold handleSave, dispatch. by rewrite Hrun.
Qed.

Lemma distinct_ordinary_names_saved_witness :
  (NoDup (seg_name <$> [mkSegment "strip" 0 5 false; mkSegment "matrix" 2 8 false]) /\
   Forall (fun s => ordinary (seg_name s) = true)
     [mkSegment "strip" 0 5 false; mkSegment "matrix" 2 8 false]) /\
  handleSave
    (mkDisplay "wall" "Wall"
       [mkSegment "strip" 0 5 false; mkSegment "matrix" 2 8 false]) []
  = (Normal tt,
     [] ++ [updateDisplayConfig "wall"
              [mkSegment "strip" 0 5 false; mkSegment "matrix" 2 8 false]]).
Proof.
  assert (NoDup (seg_name <$> [mkSegment "strip" 0 5 false;
                               mkSegment "matrix" 2 8 false])) as Hnodup.
  { simpl. apply NoDup_cons. split; [|apply NoDup_singleton].
    intros Hin%list_elem_of_singleton. discriminate. }
  assert (Forall (fun s => ordinary (seg_name s) = true)
            [mkSegment "strip" 0 5 false; mkSegment "matrix" 2 8 false]) as Hord.
  { repeat constructor. }
  split; [done|].
  exact (distinct_ordinary_names_saved
           (mkDisplay "wall" "Wall"
              [mkSegment "strip" 0 5 false; mkSegment "matrix" 2 8 false])
           [] Hnodup Hord).
Defined.

(** ** Removing segments *)

Lemma hits_sublist (placed1 placed2 : list Segment) (s : Segment) :
  placed1 `sublist_of` placed2 -> hits placed1 s = true -> hits placed2 s = true.
Proof.
  unfold hits. induction 1 as [|p l1 l2 _ IH|p l1 l2 _ IH]; simpl; [done| |].
  - rewrite !orb_true_iff. intros [Hp|Hrest]; [by left|right; by apply IH].
  - intros Hrest. rewrite orb_true_iff. right. by apply IH.
Qed.

Lemma overlaps_from_sublist (segs1 segs2 : list Segment) :
  segs1 `sublist_of` segs2 ->
  forall placed1 placed2 : list Segment,
    placed1 `sublist_of` placed2 ->
    overlaps_from placed1 segs1 = true -> overlaps_from placed2 segs2 = true.
Proof.
  induction 1 as [|s l1 l2 _ IH|s l1 l2 _ IH]; intros placed1 placed2 Hplaced;
    simpl; [done| |].
  - rewrite !orb_true_iff. intros [Hs|Hrest].
    + left. by eapply hits_sublist.
    + right. eapply IH; [|done]. by apply sublist_app.
  - intros Hrest. rewrite orb_true_iff. right.
    eapply IH; [|done]. by apply sublist_inserts_r.
Qed.

Lemma forallb_ordinary_sublist (segs1 segs2 : list Segment) :
  segs1 `sublist_of` segs2 ->
  forallb (fun s => ordinary (seg_name s)) segs2 = true ->
  forallb (fun s => ordinary (seg_name s)) segs1 = true.
Proof.
  induction 1 as [|s l1 l2 _ IH|s l1 l2 _ IH]; simpl; [done| |].
  - rewrite !andb_true_iff. intros [Hs Hrest]. split; [done|by apply IH].
  - rewrite andb_true_iff. intros [_ Hrest]. by apply IH.
Qed.

(** X7: removing segments never introduces an overlap.  Every
    subsequence of an accepted sequence (segments dropped, order kept) is
    accepted. *)
Theorem subsequence_accepted (segs1 segs2 : list Segment) :
  segs1 `sublist_of` segs2 ->
  validate segs2 = Normal false -> validate segs1 = Normal false.
Proof.
  intros Hsub. rewrite !validate_closed_form.
  destruct (forallb _ segs2) eqn:Hall; [|done].
  rewrite (forallb_ordinary_sublist _ _ Hsub Hall). intros [= Hfalse]. f_equal.
  destruct (overlaps_from [] segs1) eqn:Hov; [|done].
  rewrite (overlaps_from_sublist _ _ Hsub [] [] (sublist_nil)) in Hfalse; done.
Qed.

Lemma subsequence_accepted_witness :
  ([mkSegment "strip" 0 5 false; mkSegment "strip" 6 9 true]
     `sublist_of`
   [mkSegment "strip" 0 5 false; mkSegment "matrix" 0 5 false;
    mkSegment "strip" 6 9 true] /\
   validate [mkSegment "strip" 0 5 false; mkSegment "matrix" 0 5 false;
             mkSegment "strip" 6 9 true] = Normal false) /\
  validate [mkSegment "strip" 0 5 false; mkSegment "strip" 6 9 true] = Normal false.
Proof.
  assert ([mkSegment "strip" 0 5 false; mkSegment "strip" 6 9 true]
            `sublist_of`
          [mkSegment "strip" 0 5 false; mkSegment "matrix" 0 5 false;
           mkSegment "strip" 6 9 true]) as Hsub.
  { apply sublist_skip, sublist_cons, sublist_skip, sublist_nil. }
  assert (validate [mkSegment "strip" 0 5 false; mkSegment "matrix" 0 5 false;
                    mkSegment "strip" 6 9 true] = Normal false) as Hrun.
  { vm_compute. reflexivity. }
  split; [done|].
  exact (subsequence_accepted _ _ Hsub Hrun).
Defined.

(** ** Interleaving of names *)

Lemma elem_of_only (name : string) (segs : list Segment) (s : Segment) :
  s ∈ only name segs <-> seg_name s = name /\ s ∈ segs.
Proof. unfold only. by rewrite list_elem_of_filter. Qed.

Lemma forallb_ordinary_only (segs1 segs2 : list Segment) :
  (forall name, only name segs1 = only name segs2) ->
  forallb (fun s => ordinary (seg_name s)) segs1 = true ->
  forallb (fun s => ordinary (seg_name s)) segs2 = true.
Proof.
  intros Honly. rewrite !forallb_ordinary, !Forall_forall. intros Hall s Hs.
  apply Hall. apply (elem_of_only (seg_name s)). rewrite Honly.
  by apply elem_of_only.
Qed.

(** X8: the result depends on the sequence only through the segments of
    each name in their order: two sequences with the same segments under
    every name, however the names are interleaved, get the same result. *)
Theorem validate_interleaving (segs1 segs2 : list Segment) :
  (forall name, only name segs1 = only name segs2) ->
  validate segs1 = validate segs2.
Proof.
  intros Honly. rewrite !validate_closed_form.
  assert (forallb (fun s => ordinary (seg_name s)) segs1 =
          forallb (fun s => ordinary (seg_name s)) segs2) as ->.
  { destruct (forallb _ segs1) eqn:H1.
    - symmetry. by eapply forallb_ordinary_only.
    - destruct (forallb _ segs2) eqn:H2; [|done].
      rewrite (forallb_ordinary_only segs2 segs1) in H1; [done| |done].
      intros name. by rewrite Honly. }
  destruct (forallb _ segs2); [|done]. f_equal.
  rewrite (overlaps_from_names (names_of segs1 ++ names_of segs2) segs1 []).
  2:{ intros s Hs. apply elem_of_app. left. by apply names_of_complete. }
  rewrite (overlaps_from_names (names_of segs1 ++ names_of segs2) segs2 []).
  2:{ intros s Hs. apply elem_of_app. right. by apply names_of_complete. }
  apply existsb_pointwise. intros name. by rewrite Honly.
Qed.

Lemma validate_interleaving_witness :
  (forall name,
      only name [mkSegment "strip" 0 5 false; mkSegment "matrix" 0 5 false;
                 mkSegment "strip" 6 9 true] =
      only name [mkSegment "strip" 0 5 false; mkSegment "strip" 6 9 true;
                 mkSegment "matrix" 0 5 false]) /\
  validate [mkSegment "strip" 0 5 false; mkSegment "matrix" 0 5 false;
            mkSegment "strip" 6 9 true] =
  validate [mkSegment "strip" 0 5 false; mkSegment "strip" 6 9 true;
            mkSegment "matrix" 0 5 false].
Proof.
  assert (forall name,
      only name [mkSegment "strip" 0 5 false; mkSegment "matrix" 0 5 false;
                 mkSegment "strip" 6 9 true] =
      only name [mkSegment "strip" 0 5 false; mkSegment "strip" 6 9 true;
                 mkSegment "matrix" 0 5 false]) as Honly.
  { intros name. unfold only. rewrite !filter_cons, !filter_nil. simpl.
    destruct (decide ("strip" = name)) as [<-|Hstrip];
      destruct (decide ("matrix" = _)); done. }
  split; [exact Honly|].
  exact (validate_interleaving _ _ Honly).
Defined.

(** ** The grouping map *)

Lemma only_nil_iff (name : string) (segs : list Segment) :
  name ∉ seg_name <$> segs -> only name segs = [].
Proof.
  intros Hnot. unfold only. induction segs as [|s segs IH]; [done|].
  rewrite fmap_cons in Hnot. apply not_elem_of_cons in Hnot as [Hne Hnot].
  rewrite filter_cons_False by congruence. by apply IH.
Qed.

Lemma grouped_reached (placed : list Segment) (sc : Scope) :
  grouped placed sc -> reached placed sc.
Proof.
  intros Hsc name. rewrite Hsc. case_decide; [done|].
  by rewrite only_nil_iff.
Qed.

Lemma place_grouped (placed : list Segment) (sc : Scope) (s : Segment) :
  grouped placed sc -> grouped (placed ++ [s]) (place sc s).
Proof.
  intros Hsc name. unfold place; simpl.
  rewrite (grouped_reached _ _ Hsc), only_snoc, fmap_app.
  destruct (decide (seg_name s = name)) as [<-|Hne].
  - rewrite lookup_insert_eq. case_decide as Hin; [by rewrite fmap_app|].
    destruct Hin. rewrite elem_of_app. right. by apply list_elem_of_singleton.
  - rewrite lookup_insert_ne, Hsc by done. rewrite app_nil_r.
    apply decide_ext. rewrite elem_of_app.
    split; [by left|]. intros [Hin|Hin%list_elem_of_singleton]; [done|congruence].
Qed.

Lemma fold_place_grouped (segs placed : list Segment) (sc : Scope) :
  grouped placed sc -> grouped (placed ++ segs) (fold_left place segs sc).
Proof.
  revert placed sc. induction segs as [|s segs IH]; intros placed sc Hsc; simpl.
  - by rewrite app_nil_r.
  - rewrite cons_middle, app_assoc. apply IH. by apply place_grouped.
Qed.

(** X9: when the loop of lines 53-67 completes, the grouping map [output]
    has exactly the names of the sequence as keys, and under each name the
    [[start, end]] pairs of that name's segments in sequence order. *)
Theorem forEach_groups_by_name (segs : list Segment) (sc : Scope) :
  forEach callback segs (mkScope ∅ false) = Normal sc -> grouped segs sc.
Proof.
  rewrite forEach_callback by apply own_ordinary_initial.
  destruct (forallb _ segs); [|done]. intros [= <-].
  apply (fold_place_grouped segs []).
  intros name. simpl. by rewrite lookup_empty.
Qed.

Lemma forEach_groups_by_name_witness :
  exists sc,
    forEach callback
      [mkSegment "strip" 0 5 false; mkSegment "matrix" 0 5 false;
       mkSegment "strip" 6 9 true] (mkScope ∅ false) = Normal sc /\
    grouped [mkSegment "strip" 0 5 false; mkSegment "matrix" 0 5 false;
             mkSegment "strip" 6 9 true] sc.
Proof.
  assert (forEach callback
            [mkSegment "strip" 0 5 false; mkSegment "matrix" 0 5 false;
             mkSegment "strip" 6 9 true] (mkScope ∅ false)
          = Normal (fold_left place
                      [mkSegment "strip" 0 5 false; mkSegment "matrix" 0 5 false;
                       mkSegment "strip" 6 9 true] (mkScope ∅ false))) as Hrun.
  { rewrite forEach_callback by apply own_ordinary_initial. reflexivity. }
  eexists. split; [exact Hrun|].
  exact (forEach_groups_by_name _ _ Hrun).
Defined.

(** * Properties of the component *)

(** X10: whether the dialog is open depends only on the last request to
    open or close it: save attempts, successful or not, never close (or
    open) the dialog, and without any request it is as it was. *)
Theorem dialog_open_after_events (display : Display) (events : list Event)
    (c : Component) :
  open (run_events display events c) = default (open c) (last_request events).
Proof.
  unfold run_events. revert c.
  induction events as [|e events IH]; intros c; simpl; [done|].
  rewrite IH. destruct (last_request events); [done|].
  by destruct e.
Qed.

Lemma handleSave_appends (display : Display) (store : list Action) :
  (handleSave display store).2 = store ++ (handleSave display []).2.
Proof.
  unfold handleSave, dispatch.
  destruct (validate (display_segments display)) as [[|]|]; simpl; [done..|].
  by rewrite app_nil_r.
Qed.

(** X11: over any sequence of events the store only grows, and only by
    save attempts: it ends as the initial store followed, once per save
    attempt, by what a single save attempt dispatches for this display
    (one and the same action each time, or nothing when the handler
    throws). *)
Theorem saves_dispatch_the_same_action (display : Display) (events : list Event)
    (c : Component) :
  redux (run_events display events c) =
    redux c ++ mjoin (replicate (saves events) (handleSave display []).2).
Proof.
  unfold run_events. revert c.
  induction events as [|e events IH]; intros c; simpl.
  - by rewrite app_nil_r.
  - rewrite IH. destruct e; simpl; [done..|].
    by rewrite handleSave_appends, app_assoc.
Qed.

(** X12: the dialog shows one [Segment] element per segment, in sequence
    order, each with its position as [i] and as [key], so that keys are
    pairwise distinct, and each with the display itself; an empty sequence
    shows none. *)
Theorem rendered_rows_follow_segments (display : Display) :
  element_s <$> rendered_rows display = display_segments display /\
  element_key <$> rendered_rows display = seq 0 (length (display_segments display)) /\
  NoDup (element_key <$> rendered_rows display) /\
  Forall (fun e => element_i e = element_key e /\ element_display e = display)
         (rendered_rows display).
Proof.
  unfold rendered_rows, segment_rows.
  assert (forall (l : list Segment) (k : nat),
             element_s <$> imap (fun i s => mkSegmentElement (k + i) s (k + i) display) l
             = l /\
             element_key <$> imap (fun i s => mkSegmentElement (k + i) s (k + i) display) l
             = seq k (length l) /\
             Forall (fun e => element_i e = element_key e /\ element_display e = display)
                    (imap (fun i s => mkSegmentElement (k + i) s (k + i) display) l))
    as Himap.
  { induction l as [|s l IH]; intros k; [done|].
    rewrite imap_cons, !fmap_cons. simpl.
    rewrite (imap_ext _ (fun i s => mkSegmentElement (S k + i) s (S k + i) display))
      by (intros; simpl; f_equal; lia).
    destruct (IH (S k)) as (Hs & Hkey & Hall).
    rewrite Hs, Hkey, Nat.add_0_r. split; [done|]. split; [done|].
    constructor; [done|exact Hall]. }
  destruct (display_segments display) as [|s l] eqn:Hsegs.
  - simpl. split; [done|]. split; [done|]. split; constructor.
  - replace (0 <? length (s :: l))%nat with true by done.
    cbn [default from_option id].
    destruct (Himap (s :: l) 0%nat) as (Hs & Hkey & Hall).
    cbn [Nat.add] in *.
    split; [done|]. split; [done|]. split; [|done].
    rewrite Hkey. apply NoDup_seq.
Qed.

(** * Further properties of the store-level handler *)

(** X13: the store-level handler refines the value-level one.  On a heap
    holding a well-formed display it completes the way [handleSave]
    completes on the display read from the heap (normally or by the same
    throw), and the actions it adds to the store read back, in the final
    heap, as the actions [handleSave] dispatches. *)
Theorem handleSave_at_simulates (w : World) (dl : loc) (display : Display) :
  read_display (heap w) dl = Some display ->
  exists w',
    handleSave_at dl w =
      match (handleSave display []).1 with
      | Normal _ => Ret tt w'
      | Throw => Exn w'
      end /\
    exists new,
      store w' = store w ++ new /\
      mapM (read_action (heap w')) new = Some (handleSave display []).2.
Proof.
  intros Hread.
  destruct (handleSave_at_refines w dl display Hread) as (w' & Hrun & _ & Hnew).
  by exists w'.
Qed.

Lemma handleSave_at_simulates_witness :
  read_display demo_heap 1%positive =
    Some (mkDisplay "wall" "Wall"
            [mkSegment "strip" 0 5 false; mkSegment "strip" 5 10 true]) /\
  exists w',
    handleSave_at 1%positive (mkWorld demo_heap []) =
      match (handleSave
               (mkDisplay "wall" "Wall"
                  [mkSegment "strip" 0 5 false; mkSegment "strip" 5 10 true]) []).1
      with
      | Normal _ => Ret tt w'
      | Throw => Exn w'
      end /\
    exists new,
      store w' = [] ++ new /\
      mapM (read_action (heap w')) new =
        Some (handleSave
                (mkDisplay "wall" "Wall"
                   [mkSegment "strip" 0 5 false; mkSegment "strip" 5 10 true]) []).2.
Proof.
  split; [vm_compute; reflexivity|].
  apply (handleSave_at_simulates (mkWorld demo_heap []) 1%positive).
  vm_compute. reflexivity.
Defined.

(** X14: the store update is dispatched by reference.  On a heap holding a
    well-formed display whose segments the validator accepts, the handler
    completes normally and adds to the store exactly one action, the update
    whose [id] and [data] are the values of the display object's own [id]
    and [segments] properties: [data] is the display's segment array
    itself, not a copy. *)
Theorem update_dispatched_by_reference (w : World) (dl : loc) (display : Display)
    (dprops : gmap string val) :
  heap w !! dl = Some (OObject dprops) ->
  read_display (heap w) dl = Some display ->
  validate (display_segments display) = Normal false ->
  exists (w' : World) (id data : val),
    dprops !! "id" = Some id /\ dprops !! "segments" = Some data /\
    handleSave_at dl w = Ret tt w' /\
    store w' = store w ++ [updateDisplayConfig_at id data].
Proof.
  intros Hdl Hread Hvalid. unfold read_display in Hread. rewrite Hdl in Hread.
  destruct (dprops !! "id") as [[| | |id| |]|] eqn:Hid; try done.
  destruct (dprops !! "config") as [config|] eqn:Hconfig; [|done].
  destruct (dprops !! "segments") as [segments|] eqn:Hsegments; [|done].
  destruct (read_config_name (heap w) config) as [cname|]; [|done].
  destruct (read_segments (heap w) segments) as [segs|] eqn:Hsegs; [|done].
  injection Hread as <-. cbn [display_segments] in Hvalid.
  unfold read_segments in Hsegs.
  destruct segments as [| | | |ls|]; try done.
  destruct (heap w !! ls) as [[elems|]|] eqn:Hls; try done.
  apply mapM_Some in Hsegs.
  unfold handleSave_at. run (run_alloc _ _).
  pose proof (sim_initial w) as Hsim.
  set (lo := fresh (dom (heap w))) in *.
  set (w1 := mkWorld (<[lo := OObject ∅]> (heap w)) (store w)) in *.
  assert (heap w ⊆ heap w1) as Hsub1 by apply Hsim.
  pose proof (lookup_weaken _ _ _ _ Hdl Hsub1) as Hdl1.
  pose proof (lookup_weaken _ _ _ _ Hls Hsub1) as Hls1.
  run (run_get_prop _ _ _ "segments" Hdl1). rewrite Hsegments.
  pose proof (forEach_from_sim _ _ _ _ _ _ Hls Hsegs (length elems) 0
                (mkScope ∅ false) w1 eq_refl Hsim) as Hloop.
  rewrite drop_0 in Hloop. cbn [overlap] in Hloop.
  unfold validate in Hvalid. unfold forEach_at.
  destruct (forEach callback segs (mkScope ∅ false)) as [sc|]; [|done].
  injection Hvalid as Hov. rewrite Hov in Hloop.
  destruct Hloop as (w2 & Hrun & Hsub2 & Hst2 & _).
  rewrite (run_bind _ _ w1 false w2).
  2:{ by run (run_load _ _ _ Hls1). }
  pose proof (lookup_weaken _ _ _ _ Hdl Hsub2) as Hdl2.
  run (run_get_prop _ _ _ "id" Hdl2). rewrite Hid.
  run (run_get_prop _ _ _ "segments" Hdl2). rewrite Hsegments.
  eexists _, (VStr id), (VRef ls).
  split; [done|]. split; [done|]. split; [reflexivity|].
  cbn [heap store]. by rewrite Hst2.
Qed.

(** A heap with a display whose two segments do not overlap. *)
Lemma update_dispatched_by_reference_witness :
  (<[5%positive := OArray [VStr "strip"; VNum 6; VNum 10; VBool true]]> demo_heap
     !! 1%positive
   = Some (OObject {[ "id" := VStr "wall"; "config" := VRef 2%positive;
                      "segments" := VRef 3%positive ]}) /\
   read_display
     (<[5%positive := OArray [VStr "strip"; VNum 6; VNum 10; VBool true]]> demo_heap)
     1%positive
   = Some (mkDisplay "wall" "Wall"
             [mkSegment "strip" 0 5 false; mkSegment "strip" 6 10 true]) /\
   validate [mkSegment "strip" 0 5 false; mkSegment "strip" 6 10 true] = Normal false) /\
  exists (w' : World) (id data : val),
    ({[ "id" := VStr "wall"; "config" := VRef 2%positive;
        "segments" := VRef 3%positive ]} : gmap string val) !! "id" = Some id /\
    ({[ "id" := VStr "wall"; "config" := VRef 2%positive;
        "segments" := VRef 3%positive ]} : gmap string val) !! "segments" = Some data /\
    handleSave_at 1%positive
      (mkWorld
         (<[5%positive := OArray [VStr "strip"; VNum 6; VNum 10; VBool true]]> demo_heap)
         []) = Ret tt w' /\
    store w' = [] ++ [updateDisplayConfig_at id data].
Proof.
  assert (<[5%positive := OArray [VStr "strip"; VNum 6; VNum 10; VBool true]]> demo_heap
            !! 1%positive
          = Some (OObject {[ "id" := VStr "wall"; "config" := VRef 2%positive;
                             "segments" := VRef 3%positive ]})) as Hdl.
  { vm_compute. reflexivity. }
  assert (read_display
            (<[5%positive := OArray [VStr "strip"; VNum 6; VNum 10; VBool true]]>
               demo_heap) 1%positive
          = Some (mkDisplay "wall" "Wall"
                    [mkSegment "strip" 0 5 false; mkSegment "strip" 6 10 true]))
    as Hread.
  { vm_compute. reflexivity. }
  assert (validate [mkSegment "strip" 0 5 false; mkSegment "strip" 6 10 true]
          = Normal false) as Hvalid.
  { vm_compute. reflexivity. }
  split; [done|].
  exact (update_dispatched_by_reference
           (mkWorld
              (<[5%positive := OArray [VStr "strip"; VNum 6; VNum 10; VBool true]]>
                 demo_heap) [])
           1%positive _ _ Hdl Hread Hvalid).
Defined.
